(** * FirstResponder: the incident-memory state machine and the tool dispatcher

    A shallow embedding of [src/types/memory.ts], the storage layer
    ([loadMemory], [saveMemory], [listIncidents]), [src/memory/operations.ts],
    the switch of [src/tools/memory-tools.ts] and [executeTool] of
    [src/agent/agent.ts], followed by the properties of the specification
    that are settled against it.

    Conventions of the embedding.
    - An [async] function is a computation in the monad [M]: it reads and
      writes the [World] (the files of the [investigations] directory and the
      readings of the host: clock, random source, MCP server) and either
      returns a value or throws an [Error] with a message.
    - The [investigations] directory is a finite map from incident id to the
      document stored in [<id>.json]. [JSON.parse (JSON.stringify m)] is [m]
      for every document of the schema (strings, arrays of strings, enums and
      optional strings), so a file holds the record itself. The key of a
      record is its incident id, as it is written, and the file of id [k] is
      named [k.json]. The map is the directory for the ids that are file
      names of their own ([plain_id]): [join] leaves them as they are, the
      file system holds them, and two of them name two files. An id with a
      path separator, or one too long for a file name, is outside the model.
      The medium is taken to be a readable and writable POSIX file system
      that holds what [saveMemory] wrote: the only failure of [readFile] that
      is modelled is [ENOENT]. What is stated about ids that
      have no record, about the other ids of the directory and about the
      listing is stated for plain ids.
    - Every host reading ([new Date().toISOString()], [Date.now()],
      [Math.random()]) consumes one tick of the world; the strings they yield
      are arbitrary. *)

From stdpp Require Import base option list gmap strings fin_maps pretty.
From Stdlib Require Import ZArith Sorted OrderedTypeEx Ascii.

Open Scope string_scope.

(** ** src/types/memory.ts *)

Inductive IncidentStatus := investigating | resolved | escalated.
Inductive Severity := sev_critical | sev_high | sev_medium | sev_low.
Inductive HypothesisStatus :=
  hyp_investigating | confirmed_root_cause | hyp_ruled_out.
Inductive Confidence := conf_high | conf_medium | conf_low.
Inductive EventSource := src_logs | src_user | src_agent | src_metrics.
Inductive FindingType := fnd_error | fnd_metric | fnd_config_change.
Inductive Proposer := by_agent | by_user.

#[global] Instance IncidentStatus_eq_dec : EqDecision IncidentStatus.
Proof. solve_decision. Defined.
#[global] Instance Severity_eq_dec : EqDecision Severity.
Proof. solve_decision. Defined.
#[global] Instance HypothesisStatus_eq_dec : EqDecision HypothesisStatus.
Proof. solve_decision. Defined.
#[global] Instance Confidence_eq_dec : EqDecision Confidence.
Proof. solve_decision. Defined.
#[global] Instance EventSource_eq_dec : EqDecision EventSource.
Proof. solve_decision. Defined.

Record Metadata := mkMetadata {
  started_at : string;
  status : IncidentStatus;
  severity : Severity;
  affected_services : list string;
  investigator : string;
}.

Record TLDR := mkTLDR {
  summary : string;
  last_updated : string;
}.

Record TimelineEvent := mkTimelineEvent {
  ev_timestamp : string;
  ev_event : string;
  ev_source : EventSource;
  ev_details : string;
}.

Record HypothesisRec := mkHypothesis {
  hyp_id : string;
  hyp_title : string;
  hyp_proposed_at : string;
  hyp_proposed_by : Proposer;
  hyp_status : HypothesisStatus;
  hyp_confidence : Confidence;
  hyp_supporting_evidence : list string;
  hyp_counter_evidence : list string;
  hyp_ruled_out_at : option string;
}.

Record Finding := mkFinding {
  fnd_type : FindingType;
  fnd_description : string;
  fnd_service : string;
  fnd_timestamp : string;
  fnd_value : option string;
}.

Record RuledOutEntry := mkRuledOutEntry {
  ro_hypothesis : string;
  ro_reason : string;
  ro_ruled_out_at : string;
}.

Record IncidentMemory := mkIncidentMemory {
  incident_id : string;
  incident_name : string;
  metadata : Metadata;
  tldr : TLDR;
  timeline : list TimelineEvent;
  hypotheses : list HypothesisRec;
  findings : list Finding;
  ruled_out : list RuledOutEntry;
}.

(** Assignments to one property of an object. *)

Definition set_status (s : IncidentStatus) (md : Metadata) : Metadata :=
  mkMetadata (started_at md) s (severity md) (affected_services md)
    (investigator md).

Definition set_metadata (md : Metadata) (m : IncidentMemory) : IncidentMemory :=
  mkIncidentMemory (incident_id m) (incident_name m) md (tldr m) (timeline m)
    (hypotheses m) (findings m) (ruled_out m).

Definition set_tldr (t : TLDR) (m : IncidentMemory) : IncidentMemory :=
  mkIncidentMemory (incident_id m) (incident_name m) (metadata m) t (timeline m)
    (hypotheses m) (findings m) (ruled_out m).

Definition set_timeline (tl : list TimelineEvent) (m : IncidentMemory)
  : IncidentMemory :=
  mkIncidentMemory (incident_id m) (incident_name m) (metadata m) (tldr m) tl
    (hypotheses m) (findings m) (ruled_out m).

Definition set_hypotheses (hs : list HypothesisRec) (m : IncidentMemory)
  : IncidentMemory :=
  mkIncidentMemory (incident_id m) (incident_name m) (metadata m) (tldr m)
    (timeline m) hs (findings m) (ruled_out m).

Definition set_findings (fs : list Finding) (m : IncidentMemory)
  : IncidentMemory :=
  mkIncidentMemory (incident_id m) (incident_name m) (metadata m) (tldr m)
    (timeline m) (hypotheses m) fs (ruled_out m).

Definition set_ruled_out (ros : list RuledOutEntry) (m : IncidentMemory)
  : IncidentMemory :=
  mkIncidentMemory (incident_id m) (incident_name m) (metadata m) (tldr m)
    (timeline m) (hypotheses m) (findings m) ros.

Definition set_hyp_status (s : HypothesisStatus) (h : HypothesisRec) : HypothesisRec :=
  mkHypothesis (hyp_id h) (hyp_title h) (hyp_proposed_at h) (hyp_proposed_by h)
    s (hyp_confidence h) (hyp_supporting_evidence h) (hyp_counter_evidence h)
    (hyp_ruled_out_at h).

Definition set_hyp_ruled_out_at (t : string) (h : HypothesisRec) : HypothesisRec :=
  mkHypothesis (hyp_id h) (hyp_title h) (hyp_proposed_at h) (hyp_proposed_by h)
    (hyp_status h) (hyp_confidence h) (hyp_supporting_evidence h)
    (hyp_counter_evidence h) (Some t).

Definition set_hyp_confidence (c : Confidence) (h : HypothesisRec) : HypothesisRec :=
  mkHypothesis (hyp_id h) (hyp_title h) (hyp_proposed_at h) (hyp_proposed_by h)
    (hyp_status h) c (hyp_supporting_evidence h) (hyp_counter_evidence h)
    (hyp_ruled_out_at h).

Definition set_hyp_supporting_evidence (e : list string) (h : HypothesisRec)
  : HypothesisRec :=
  mkHypothesis (hyp_id h) (hyp_title h) (hyp_proposed_at h) (hyp_proposed_by h)
    (hyp_status h) (hyp_confidence h) e (hyp_counter_evidence h)
    (hyp_ruled_out_at h).

Definition set_hyp_counter_evidence (e : list string) (h : HypothesisRec)
  : HypothesisRec :=
  mkHypothesis (hyp_id h) (hyp_title h) (hyp_proposed_at h) (hyp_proposed_by h)
    (hyp_status h) (hyp_confidence h) (hyp_supporting_evidence h) e
    (hyp_ruled_out_at h).

(** ** The host and the world *)

(** Values of a tool input bag ([Record<string, unknown>]) that the declared
    input schemas admit: a string or an array of strings. *)
Inductive Json := JString (s : string) | JStrings (l : list string).

Abbreviation ToolInput := (gmap string Json).

(** What a computation ends with: a value, or a thrown [Error]. *)
Inductive Outcome (A : Type) := Returned (a : A) | Thrown (message : string).
Arguments Returned {A} a.
Arguments Thrown {A} message.

(** The reply of the MCP server to [callTool]: [result.content] is an array
    of parts, or the reply has no such array. *)
Inductive McpContent := TextContent (text : string) | OtherContent.
Record McpReply := mkMcpReply { content : option (list McpContent) }.

Record Host := mkHost {
  (** the n-th reading of [new Date().toISOString()] *)
  toISOString_now : nat → string;
  (** the n-th reading of [Date.now().toString(36)] *)
  date_now_36 : nat → string;
  (** the n-th reading of [Math.random().toString(36).substring(2, 6)] *)
  math_random_36 : nat → string;
  (** the tools that [client.listTools()] reports *)
  listTools : list string;
  (** the MCP server behind [client.callTool] *)
  callTool : string → ToolInput → Outcome McpReply;
  (** whether [JSON.parse] accepts a text *)
  json_parses : string → bool;
}.

Record World := mkWorld {
  files : gmap string IncidentMemory;
  host : Host;
  ticks : nat;
}.

Definition M (A : Type) : Type := World → Outcome A * World.

#[global] Instance M_ret : MRet M := λ A a w, (Returned a, w).

#[global] Instance M_bind : MBind M := λ A B f c w,
  match c w with
  | (Returned a, w') => f a w'
  | (Thrown e, w') => (Thrown e, w')
  end.

#[global] Instance M_fmap : FMap M := λ A B f c w,
  match c w with
  | (Returned a, w') => (Returned (f a), w')
  | (Thrown e, w') => (Thrown e, w')
  end.

(** [throw new Error(message)] *)
Definition throw {A} (message : string) : M A := λ w, (Thrown message, w).

(** [try { c } catch (error) { handler error.message }] *)
Definition try_catch {A} (c : M A) (handler : string → M A) : M A := λ w,
  match c w with
  | (Returned a, w') => (Returned a, w')
  | (Thrown e, w') => handler e w'
  end.

Definition tick (w : World) : World := mkWorld (files w) (host w) (S (ticks w)).

(** ** The storage layer *)

(** [getMemoryFilePath] joins the working directory, [investigations] and
    [<id>.json]; for a plain id the file it names is the one of key [id].
    [loadMemory] reads that file: a missing file ([ENOENT]) gives [null];
    the other failures of [readFile], which [loadMemory] throws again, do
    not arise for a plain id on a readable medium. *)
Definition loadMemory (incidentId : string) : M (option IncidentMemory) :=
  λ w, (Returned (files w !! incidentId), w).

Definition saveMemory (memory : IncidentMemory) : M unit :=
  λ w, (Returned (),
        mkWorld (<[incident_id memory := memory]> (files w)) (host w) (ticks w)).

Definition memoryExists (incidentId : string) : M bool :=
  λ w, (Returned (bool_decide (is_Some (files w !! incidentId))), w).

(** [String.prototype.endsWith]: some suffix of [s], [s] included, is
    [suffix]. *)
Fixpoint endsWith (suffix s : string) : bool :=
  if String.eqb s suffix then true
  else match s with
       | EmptyString => false
       | String _ s' => endsWith suffix s'
       end.

(** [String.prototype.replace] with a string pattern: the first occurrence
    of the pattern is replaced, and only that one. *)
Fixpoint replace (pattern replacement s : string) : string :=
  if String.prefix pattern s
  then replacement
       +:+ String.substring (String.length pattern)
             (String.length s - String.length pattern) s
  else match s with
       | EmptyString => EmptyString
       | String c s' => String c (replace pattern replacement s')
       end.

(** [readdir] of the directory: the file names, one [<id>.json] per record.
    A directory that does not exist yet is the empty map; its listing is
    empty, as in the [catch] of [listIncidents]. The order of the names is
    the one of the map; nothing is stated about it. *)
Definition readdir : M (list string) :=
  λ w, (Returned ((λ k, k +:+ ".json") <$> (fst <$> map_to_list (files w))), w).

Definition listIncidents : M (list string) :=
  fs ← readdir;
  mret (replace ".json" "" <$> List.filter (endsWith ".json") fs).

(** ** src/memory/operations.ts *)

Definition utcNow : M string :=
  λ w, (Returned (toISOString_now (host w) (ticks w)), tick w).

(** [Date.now().toString(36)] *)
Definition dateNow36 : M string :=
  λ w, (Returned (date_now_36 (host w) (ticks w)), tick w).

(** [Math.random().toString(36).substring(2, 6)] *)
Definition mathRandom36 : M string :=
  λ w, (Returned (math_random_36 (host w) (ticks w)), tick w).

Definition generateIncidentId : M string :=
  timestamp ← dateNow36;
  random ← mathRandom36;
  mret ("inc_" +:+ timestamp +:+ "_" +:+ random).

Definition generateHypothesisId (memory : IncidentMemory) : string :=
  let count := length (hypotheses memory) + 1 in
  "hyp_" +:+ pretty count.

Definition not_found (what id : string) : string :=
  what +:+ " " +:+ id +:+ " not found".

Record CreateIncidentParams := mkCreateIncidentParams {
  ci_name : string;
  ci_severity : Severity;
  ci_affected_services : list string;
  ci_investigator : string;
  ci_initial_description : string;
}.

Definition createIncident (params : CreateIncidentParams) : M IncidentMemory :=
  now ← utcNow;
  id ← generateIncidentId;
  let memory :=
    {| incident_id := id;
       incident_name := ci_name params;
       metadata :=
         {| started_at := now;
            status := investigating;
            severity := ci_severity params;
            affected_services := ci_affected_services params;
            investigator := ci_investigator params |};
       tldr :=
         {| summary := ci_initial_description params; last_updated := now |};
       timeline :=
         [ {| ev_timestamp := now;
              ev_event := "Investigation started";
              ev_source := src_user;
              ev_details := ci_initial_description params |} ];
       hypotheses := [];
       findings := [];
       ruled_out := [] |} in
  _ ← saveMemory memory;
  mret memory.

(** [String.prototype.localeCompare] belongs to the host, not to the
    repository. The specification reads the comparison as "string lexical
    order on ISO-8601 UTC"; it is taken as the lexicographic comparison of the
    characters, with the result as a number: negative, zero or positive. The
    collation of the host orders digits as this comparison does, so the two
    agree on strings that differ in digits only: on the timestamps of one
    shape, such as those that [toISOString] writes ([iso_shaped]). What is
    stated about the order that [sort] produces is stated for those. *)
Definition localeCompare (a b : string) : Z :=
  match String.compare a b with
  | Lt => (-1)%Z
  | Eq => 0%Z
  | Gt => 1%Z
  end.

(** [Array.prototype.sort] with a comparator is a stable sort; for a
    comparator that is a total preorder every stable sort yields the same
    array. Written as the insertion sort that keeps equal elements in their
    order. *)
Fixpoint sort_insert {A} (compareFn : A → A → Z) (x : A) (l : list A) : list A :=
  match l with
  | [] => [x]
  | y :: l' =>
      if (compareFn x y <=? 0)%Z then x :: y :: l'
      else y :: sort_insert compareFn x l'
  end.

Definition sort {A} (compareFn : A → A → Z) (l : list A) : list A :=
  foldr (sort_insert compareFn) [] l.

Record AddTimelineEventParams := mkAddTimelineEventParams {
  te_incident_id : string;
  te_event : string;
  te_source : EventSource;
  te_details : string;
  te_timestamp : option string;
}.

Definition addTimelineEvent (params : AddTimelineEventParams)
  : M IncidentMemory :=
  memory ← loadMemory (te_incident_id params);
  match memory with
  | None => throw (not_found "Incident" (te_incident_id params))
  | Some memory =>
      timestamp ← match te_timestamp params with
                  | Some t => mret t
                  | None => utcNow
                  end;
      let newEvent :=
        {| ev_timestamp := timestamp;
           ev_event := te_event params;
           ev_source := te_source params;
           ev_details := te_details params |} in
      let memory := set_timeline (timeline memory ++ [newEvent]) memory in
      let memory :=
        set_timeline
          (sort (λ a b, localeCompare (ev_timestamp a) (ev_timestamp b))
             (timeline memory)) memory in
      _ ← saveMemory memory;
      mret memory
  end.

Record ProposeHypothesisParams := mkProposeHypothesisParams {
  ph_incident_id : string;
  ph_title : string;
  ph_proposed_by : Proposer;
  ph_initial_evidence : list string;
  ph_confidence : Confidence;
}.

Definition proposeHypothesis (params : ProposeHypothesisParams)
  : M IncidentMemory :=
  memory ← loadMemory (ph_incident_id params);
  match memory with
  | None => throw (not_found "Incident" (ph_incident_id params))
  | Some memory =>
      let id := generateHypothesisId memory in
      proposed_at ← utcNow;
      let hypothesis :=
        {| hyp_id := id;
           hyp_title := ph_title params;
           hyp_proposed_at := proposed_at;
           hyp_proposed_by := ph_proposed_by params;
           hyp_status := hyp_investigating;
           hyp_confidence := ph_confidence params;
           hyp_supporting_evidence := ph_initial_evidence params;
           hyp_counter_evidence := [];
           hyp_ruled_out_at := None |} in
      let memory := set_hypotheses (hypotheses memory ++ [hypothesis]) memory in
      _ ← saveMemory memory;
      mret memory
  end.

(** [memory.hypotheses.find((h) => h.id === id)]: the first hypothesis with
    that id, together with its index; the operations mutate the object that
    [find] returns, which is the array element at that index. *)
Definition find_hypothesis (id : string) (hs : list HypothesisRec)
  : option (nat * HypothesisRec) :=
  list_find (λ h, hyp_id h = id) hs.

Record UpdateHypothesisParams := mkUpdateHypothesisParams {
  uh_incident_id : string;
  uh_hypothesis_id : string;
  uh_add_supporting_evidence : option (list string);
  uh_add_counter_evidence : option (list string);
  uh_new_confidence : option Confidence;
}.

Definition updateHypothesis (params : UpdateHypothesisParams)
  : M IncidentMemory :=
  memory ← loadMemory (uh_incident_id params);
  match memory with
  | None => throw (not_found "Incident" (uh_incident_id params))
  | Some memory =>
      match find_hypothesis (uh_hypothesis_id params) (hypotheses memory) with
      | None => throw (not_found "Hypothesis" (uh_hypothesis_id params))
      | Some (i, hypothesis) =>
          let hypothesis :=
            match uh_add_supporting_evidence params with
            | Some add =>
                set_hyp_supporting_evidence
                  (hyp_supporting_evidence hypothesis ++ add) hypothesis
            | None => hypothesis
            end in
          let hypothesis :=
            match uh_add_counter_evidence params with
            | Some add =>
                set_hyp_counter_evidence
                  (hyp_counter_evidence hypothesis ++ add) hypothesis
            | None => hypothesis
            end in
          let hypothesis :=
            match uh_new_confidence params with
            | Some c => set_hyp_confidence c hypothesis
            | None => hypothesis
            end in
          let memory :=
            set_hypotheses (<[i := hypothesis]> (hypotheses memory)) memory in
          _ ← saveMemory memory;
          mret memory
      end
  end.

Record RuleOutHypothesisParams := mkRuleOutHypothesisParams {
  ro_incident_id : string;
  ro_hypothesis_id : string;
  ro_param_reason : string;
}.

Definition ruleOutHypothesis (params : RuleOutHypothesisParams)
  : M IncidentMemory :=
  memory ← loadMemory (ro_incident_id params);
  match memory with
  | None => throw (not_found "Incident" (ro_incident_id params))
  | Some memory =>
      match find_hypothesis (ro_hypothesis_id params) (hypotheses memory) with
      | None => throw (not_found "Hypothesis" (ro_hypothesis_id params))
      | Some (i, hypothesis) =>
          now ← utcNow;
          let hypothesis := set_hyp_status hyp_ruled_out hypothesis in
          let hypothesis := set_hyp_ruled_out_at now hypothesis in
          let memory :=
            set_hypotheses (<[i := hypothesis]> (hypotheses memory)) memory in
          let memory :=
            set_ruled_out
              (ruled_out memory ++
                 [ {| ro_hypothesis := hyp_title hypothesis;
                      ro_reason := ro_param_reason params;
                      ro_ruled_out_at := now |} ]) memory in
          _ ← saveMemory memory;
          mret memory
      end
  end.

Record ConfirmRootCauseParams := mkConfirmRootCauseParams {
  cr_incident_id : string;
  cr_hypothesis_id : string;
}.

Definition confirmRootCause (params : ConfirmRootCauseParams)
  : M IncidentMemory :=
  memory ← loadMemory (cr_incident_id params);
  match memory with
  | None => throw (not_found "Incident" (cr_incident_id params))
  | Some memory =>
      match find_hypothesis (cr_hypothesis_id params) (hypotheses memory) with
      | None => throw (not_found "Hypothesis" (cr_hypothesis_id params))
      | Some (i, hypothesis) =>
          let hypothesis := set_hyp_status confirmed_root_cause hypothesis in
          let memory :=
            set_hypotheses (<[i := hypothesis]> (hypotheses memory)) memory in
          let memory :=
            set_metadata (set_status resolved (metadata memory)) memory in
          last_updated ← utcNow;
          let memory :=
            set_tldr
              {| summary := "Root cause confirmed: " +:+ hyp_title hypothesis;
                 last_updated := last_updated |} memory in
          timestamp ← utcNow;
          let memory :=
            set_timeline
              (timeline memory ++
                 [ {| ev_timestamp := timestamp;
                      ev_event := "Root cause confirmed";
                      ev_source := src_user;
                      ev_details := hyp_title hypothesis |} ]) memory in
          _ ← saveMemory memory;
          mret memory
      end
  end.

Record AddFindingParams := mkAddFindingParams {
  af_incident_id : string;
  af_type : FindingType;
  af_description : string;
  af_service : string;
  af_timestamp : string;
  af_value : option string;
}.

Definition addFinding (params : AddFindingParams) : M IncidentMemory :=
  memory ← loadMemory (af_incident_id params);
  match memory with
  | None => throw (not_found "Incident" (af_incident_id params))
  | Some memory =>
      let finding :=
        {| fnd_type := af_type params;
           fnd_description := af_description params;
           fnd_service := af_service params;
           fnd_timestamp := af_timestamp params;
           fnd_value := af_value params |} in
      let memory := set_findings (findings memory ++ [finding]) memory in
      _ ← saveMemory memory;
      mret memory
  end.

Record UpdateTLDRParams := mkUpdateTLDRParams {
  ut_incident_id : string;
  ut_summary : string;
}.

Definition updateTLDR (params : UpdateTLDRParams) : M IncidentMemory :=
  memory ← loadMemory (ut_incident_id params);
  match memory with
  | None => throw (not_found "Incident" (ut_incident_id params))
  | Some memory =>
      last_updated ← utcNow;
      let memory :=
        set_tldr
          {| summary := ut_summary params; last_updated := last_updated |}
          memory in
      _ ← saveMemory memory;
      mret memory
  end.

Definition getIncident (incidentId : string) : M (option IncidentMemory) :=
  loadMemory incidentId.

Definition getHypotheses (incidentId : string) : M (list HypothesisRec) :=
  memory ← loadMemory incidentId;
  match memory with
  | None => throw (not_found "Incident" incidentId)
  | Some memory => mret (hypotheses memory)
  end.

Definition getTimeline (incidentId : string) : M (list TimelineEvent) :=
  memory ← loadMemory incidentId;
  match memory with
  | None => throw (not_found "Incident" incidentId)
  | Some memory => mret (timeline memory)
  end.

(** ** src/tools/memory-tools.ts *)

(** A tool of the catalogue: its name and the properties its input schema
    requires (descriptions and property types are documentation for the
    model and play no part in the dispatch). *)
Record Tool := mkTool {
  tool_name : string;
  tool_required : list string;
}.

Definition memoryTools : list Tool :=
  [ mkTool "create_incident"
      ["name"; "severity"; "affected_services"; "investigator";
       "initial_description"];
    mkTool "get_incident" ["incident_id"];
    mkTool "list_incidents" [];
    mkTool "add_timeline_event" ["incident_id"; "event"; "source"; "details"];
    mkTool "propose_hypothesis"
      ["incident_id"; "title"; "proposed_by"; "initial_evidence"; "confidence"];
    mkTool "update_hypothesis" ["incident_id"; "hypothesis_id"];
    mkTool "rule_out_hypothesis" ["incident_id"; "hypothesis_id"; "reason"];
    mkTool "confirm_root_cause" ["incident_id"; "hypothesis_id"];
    mkTool "add_finding"
      ["incident_id"; "type"; "description"; "service"; "timestamp"];
    mkTool "update_tldr" ["incident_id"; "summary"];
    mkTool "get_hypotheses" ["incident_id"];
    mkTool "get_timeline" ["incident_id"] ].

(** What a tool hands back to the agentic loop (the [unknown] of the
    source): the value of a memory operation, the decoded reply of the MCP
    server, or the [{ error: message }] object of [executeTool]. *)
Inductive ToolResult :=
  | ResMemory (memory : IncidentMemory)
  | ResNull
  | ResIds (ids : list string)
  | ResHypotheses (hs : list HypothesisRec)
  | ResTimeline (events : list TimelineEvent)
  | ResText (text : string)
  | ResParsed (text : string)
  | ResReply (reply : McpReply)
  | ResError (message : string).

(** The casts [toolInput.x as T] are unchecked in the source. The model
    follows a call only when the bag has the shape its tool declares: a
    decoder answers [None] on a bag outside the schema. *)
Definition as_string (v : option Json) : option string :=
  match v with Some (JString s) => Some s | _ => None end.

Definition as_strings (v : option Json) : option (list string) :=
  match v with Some (JStrings l) => Some l | _ => None end.

Definition as_optional_string (v : option Json) : option (option string) :=
  match v with
  | None => Some None
  | Some (JString s) => Some (Some s)
  | Some (JStrings _) => None
  end.

Definition as_optional_strings (v : option Json)
  : option (option (list string)) :=
  match v with
  | None => Some None
  | Some (JStrings l) => Some (Some l)
  | Some (JString _) => None
  end.

Definition as_severity (v : option Json) : option Severity :=
  s ← as_string v;
  if decide (s = "critical") then Some sev_critical
  else if decide (s = "high") then Some sev_high
  else if decide (s = "medium") then Some sev_medium
  else if decide (s = "low") then Some sev_low
  else None.

Definition as_confidence (v : option Json) : option Confidence :=
  s ← as_string v;
  if decide (s = "high") then Some conf_high
  else if decide (s = "medium") then Some conf_medium
  else if decide (s = "low") then Some conf_low
  else None.

Definition as_optional_confidence (v : option Json)
  : option (option Confidence) :=
  match v with
  | None => Some None
  | Some _ => Some <$> as_confidence v
  end.

Definition as_source (v : option Json) : option EventSource :=
  s ← as_string v;
  if decide (s = "logs") then Some src_logs
  else if decide (s = "user") then Some src_user
  else if decide (s = "agent") then Some src_agent
  else if decide (s = "metrics") then Some src_metrics
  else None.

Definition as_proposer (v : option Json) : option Proposer :=
  s ← as_string v;
  if decide (s = "agent") then Some by_agent
  else if decide (s = "user") then Some by_user
  else None.

Definition as_finding_type (v : option Json) : option FindingType :=
  s ← as_string v;
  if decide (s = "error") then Some fnd_error
  else if decide (s = "metric") then Some fnd_metric
  else if decide (s = "config_change") then Some fnd_config_change
  else None.

Definition of_incident (o : option IncidentMemory) : ToolResult :=
  match o with Some memory => ResMemory memory | None => ResNull end.

Definition executeMemoryTool (toolName : string) (toolInput : ToolInput)
  : option (M ToolResult) :=
  if decide (toolName = "create_incident") then
    name ← as_string (toolInput !! "name");
    severity ← as_severity (toolInput !! "severity");
    affected_services ← as_strings (toolInput !! "affected_services");
    investigator ← as_string (toolInput !! "investigator");
    initial_description ← as_string (toolInput !! "initial_description");
    Some (ResMemory <$>
            createIncident
              {| ci_name := name;
                 ci_severity := severity;
                 ci_affected_services := affected_services;
                 ci_investigator := investigator;
                 ci_initial_description := initial_description |})
  else if decide (toolName = "get_incident") then
    incident_id ← as_string (toolInput !! "incident_id");
    Some (of_incident <$> getIncident incident_id)
  else if decide (toolName = "list_incidents") then
    Some (ResIds <$> listIncidents)
  else if decide (toolName = "add_timeline_event") then
    incident_id ← as_string (toolInput !! "incident_id");
    event ← as_string (toolInput !! "event");
    source ← as_source (toolInput !! "source");
    details ← as_string (toolInput !! "details");
    timestamp ← as_optional_string (toolInput !! "timestamp");
    Some (ResMemory <$>
            addTimelineEvent
              {| te_incident_id := incident_id;
                 te_event := event;
                 te_source := source;
                 te_details := details;
                 te_timestamp := timestamp |})
  else if decide (toolName = "propose_hypothesis") then
    incident_id ← as_string (toolInput !! "incident_id");
    title ← as_string (toolInput !! "title");
    proposed_by ← as_proposer (toolInput !! "proposed_by");
    initial_evidence ← as_strings (toolInput !! "initial_evidence");
    confidence ← as_confidence (toolInput !! "confidence");
    Some (ResMemory <$>
            proposeHypothesis
              {| ph_incident_id := incident_id;
                 ph_title := title;
                 ph_proposed_by := proposed_by;
                 ph_initial_evidence := initial_evidence;
                 ph_confidence := confidence |})
  else if decide (toolName = "update_hypothesis") then
    incident_id ← as_string (toolInput !! "incident_id");
    hypothesis_id ← as_string (toolInput !! "hypothesis_id");
    add_supporting_evidence ←
      as_optional_strings (toolInput !! "add_supporting_evidence");
    add_counter_evidence ←
      as_optional_strings (toolInput !! "add_counter_evidence");
    new_confidence ← as_optional_confidence (toolInput !! "new_confidence");
    Some (ResMemory <$>
            updateHypothesis
              {| uh_incident_id := incident_id;
                 uh_hypothesis_id := hypothesis_id;
                 uh_add_supporting_evidence := add_supporting_evidence;
                 uh_add_counter_evidence := add_counter_evidence;
                 uh_new_confidence := new_confidence |})
  else if decide (toolName = "rule_out_hypothesis") then
    incident_id ← as_string (toolInput !! "incident_id");
    hypothesis_id ← as_string (toolInput !! "hypothesis_id");
    reason ← as_string (toolInput !! "reason");
    Some (ResMemory <$>
            ruleOutHypothesis
              {| ro_incident_id := incident_id;
                 ro_hypothesis_id := hypothesis_id;
                 ro_param_reason := reason |})
  else if decide (toolName = "confirm_root_cause") then
    incident_id ← as_string (toolInput !! "incident_id");
    hypothesis_id ← as_string (toolInput !! "hypothesis_id");
    Some (ResMemory <$>
            confirmRootCause
              {| cr_incident_id := incident_id;
                 cr_hypothesis_id := hypothesis_id |})
  else if decide (toolName = "add_finding") then
    incident_id ← as_string (toolInput !! "incident_id");
    type ← as_finding_type (toolInput !! "type");
    description ← as_string (toolInput !! "description");
    service ← as_string (toolInput !! "service");
    timestamp ← as_string (toolInput !! "timestamp");
    value ← as_optional_string (toolInput !! "value");
    Some (ResMemory <$>
            addFinding
              {| af_incident_id := incident_id;
                 af_type := type;
                 af_description := description;
                 af_service := service;
                 af_timestamp := timestamp;
                 af_value := value |})
  else if decide (toolName = "update_tldr") then
    incident_id ← as_string (toolInput !! "incident_id");
    summary ← as_string (toolInput !! "summary");
    Some (ResMemory <$>
            updateTLDR
              {| ut_incident_id := incident_id; ut_summary := summary |})
  else if decide (toolName = "get_hypotheses") then
    incident_id ← as_string (toolInput !! "incident_id");
    Some (ResHypotheses <$> getHypotheses incident_id)
  else if decide (toolName = "get_timeline") then
    incident_id ← as_string (toolInput !! "incident_id");
    Some (ResTimeline <$> getTimeline incident_id)
  else
    Some (throw ("Unknown memory tool: " +:+ toolName)).

(** ** src/mcp/client.ts *)

Definition newline : string := String (Ascii.ascii_of_nat 10) EmptyString.

Definition text_parts (parts : list McpContent) : list string :=
  omap (λ c, match c with TextContent text => Some text | OtherContent => None end)
    parts.

Definition executeMcpTool (toolName : string) (toolArgs : ToolInput)
  : M ToolResult :=
  λ w,
    match callTool (host w) toolName toolArgs with
    | Thrown e => (Thrown e, w)
    | Returned result =>
        match content result with
        | Some parts =>
            let textContent := String.concat newline (text_parts parts) in
            if String.prefix "{" textContent || String.prefix "[" textContent
            then
              if json_parses (host w) textContent
              then (Returned (ResParsed textContent), w)
              else (Returned (ResText textContent), w)
            else (Returned (ResText textContent), w)
        | None => (Returned (ResReply result), w)
        end
    end.

(** ** src/agent/agent.ts *)

Definition memoryToolNames : gset string :=
  list_to_set (tool_name <$> memoryTools).

(** [catch (error) { return { error: message } }] *)
Definition as_error_object (message : string) : M ToolResult :=
  mret (ResError message).

Definition executeTool (toolName : string) (toolInput : ToolInput)
  : option (M ToolResult) :=
  routed ←
    (if decide (toolName ∈ memoryToolNames)
     then executeMemoryTool toolName toolInput
     else Some (executeMcpTool toolName toolInput));
  Some (try_catch routed as_error_object).

(** ** Runs of the state machine *)

Inductive Call :=
  | CreateIncident (p : CreateIncidentParams)
  | AddTimelineEvent (p : AddTimelineEventParams)
  | ProposeHypothesis (p : ProposeHypothesisParams)
  | UpdateHypothesis (p : UpdateHypothesisParams)
  | RuleOutHypothesis (p : RuleOutHypothesisParams)
  | ConfirmRootCause (p : ConfirmRootCauseParams)
  | AddFinding (p : AddFindingParams)
  | UpdateTLDR (p : UpdateTLDRParams)
  | GetIncident (incidentId : string)
  | GetHypotheses (incidentId : string)
  | GetTimeline (incidentId : string).

Definition perform (c : Call) : M ToolResult :=
  match c with
  | CreateIncident p => ResMemory <$> createIncident p
  | AddTimelineEvent p => ResMemory <$> addTimelineEvent p
  | ProposeHypothesis p => ResMemory <$> proposeHypothesis p
  | UpdateHypothesis p => ResMemory <$> updateHypothesis p
  | RuleOutHypothesis p => ResMemory <$> ruleOutHypothesis p
  | ConfirmRootCause p => ResMemory <$> confirmRootCause p
  | AddFinding p => ResMemory <$> addFinding p
  | UpdateTLDR p => ResMemory <$> updateTLDR p
  | GetIncident id => of_incident <$> getIncident id
  | GetHypotheses id => ResHypotheses <$> getHypotheses id
  | GetTimeline id => ResTimeline <$> getTimeline id
  end.

(** The world after a call; a call that throws leaves the world it has
    reached (no operation writes before it throws). *)
Definition step (c : Call) (w : World) : World := (perform c w).2.

Definition run (cs : list Call) (w : World) : World :=
  foldl (λ w c, step c w) w cs.

(** The incident a call names ([createIncident] names none: it makes its
    own id). *)
Definition call_incident (c : Call) : option string :=
  match c with
  | CreateIncident _ => None
  | AddTimelineEvent p => Some (te_incident_id p)
  | ProposeHypothesis p => Some (ph_incident_id p)
  | UpdateHypothesis p => Some (uh_incident_id p)
  | RuleOutHypothesis p => Some (ro_incident_id p)
  | ConfirmRootCause p => Some (cr_incident_id p)
  | AddFinding p => Some (af_incident_id p)
  | UpdateTLDR p => Some (ut_incident_id p)
  | GetIncident id | GetHypotheses id | GetTimeline id => Some id
  end.

(** The id of the record that a call creates, if it creates one. *)
Definition creates (c : Call) (w : World) : option string :=
  match c with
  | CreateIncident p =>
      match (createIncident p w).1 with
      | Returned m => Some (incident_id m)
      | Thrown _ => None
      end
  | _ => None
  end.

(** The worlds that the operations reach from an empty directory, whatever
    the host answers. *)
Inductive reachable : World → Prop :=
  | reachable_init w : files w = ∅ → reachable w
  | reachable_step c w : reachable w → reachable (step c w).

(** ** src/agent/agent.ts: the agentic loop *)

(** The blocks of a response of the completion service: text, a request to
    call a tool, or a block of another type. *)
Inductive ContentBlock :=
  | TextBlock (text : string)
  | ToolUseBlock (id name : string) (input : ToolInput)
  | OtherBlock.

(** [response.stop_reason]; [other_stop] stands for every value that the
    loop does not name. *)
Inductive StopReason := end_turn | tool_use | max_tokens | other_stop.

Record Response := mkResponse {
  response_content : list ContentBlock;
  response_stop_reason : StopReason;
}.

Record ToolResultBlockParam := mkToolResult {
  tool_use_id : string;
  tool_result_content : string;
}.

(** An entry of [conversationHistory]: the message of the user, the content
    of a response, or the results of the tools of one response. The first
    and the last have the role [user], the second the role [assistant]. *)
Inductive MessageParam :=
  | UserMessage (text : string)
  | AssistantMessage (blocks : list ContentBlock)
  | ToolResultsMessage (results : list ToolResultBlockParam).

(** The completion service and the serializer of the host:
    [client.messages.stream(...).finalMessage()] on the history it is sent,
    which may throw, and [JSON.stringify]. *)
Record Oracle := mkOracle {
  finalMessage : list MessageParam → Outcome Response;
  JSON_stringify : ToolResult → string;
}.

(** The state of the agent module: the process-wide history and the world
    of the tools. *)
Record Session := mkSession {
  conversationHistory : list MessageParam;
  world : World;
}.

Definition push (message : MessageParam) (s : Session) : Session :=
  mkSession (conversationHistory s ++ [message]) (world s).

Definition set_world (w : World) (s : Session) : Session :=
  mkSession (conversationHistory s) w.

Definition extractText (blocks : list ContentBlock) : string :=
  String.concat newline
    (omap (λ block, match block with TextBlock text => Some text | _ => None end)
       blocks).

(** [typeof result === "string" ? result : JSON.stringify(result)] *)
Definition result_content (o : Oracle) (result : ToolResult) : string :=
  match result with
  | ResText text => text
  | _ => JSON_stringify o result
  end.

(** The [for] loop over the blocks of a response: every [tool_use] block is
    executed in turn and its result pushed. The computation exists when
    every input bag has the shape its tool declares. *)
Fixpoint run_tools (o : Oracle) (blocks : list ContentBlock)
  : option (M (list ToolResultBlockParam)) :=
  match blocks with
  | [] => Some (mret [])
  | ToolUseBlock id name input :: rest =>
      call ← executeTool name input;
      others ← run_tools o rest;
      Some (result ← call;
            toolResults ← others;
            mret (mkToolResult id (result_content o result) :: toolResults))
  | _ :: rest => run_tools o rest
  end.

(** How a call of [sendMessage] ends: it returns or throws in some
    session, or the model stops: the rounds allowed are used up, or a tool
    input has not the shape its tool declares. *)
Inductive Exchange :=
  | Finished (outcome : Outcome string) (s : Session)
  | OutOfFuel
  | OutsideSchema.

Definition truncation_notice : string :=
  newline +:+ newline +:+ "[Response truncated due to length]".

(** The [while (true)] of [sendMessage], called without event handlers, for
    at most [fuel] requests to the completion service. *)
Fixpoint sendMessage_loop (o : Oracle) (fuel : nat) (s : Session) : Exchange :=
  match fuel with
  | O => OutOfFuel
  | S fuel =>
      match finalMessage o (conversationHistory s) with
      | Thrown e => Finished (Thrown e) s
      | Returned response =>
          let s := push (AssistantMessage (response_content response)) s in
          match response_stop_reason response with
          | end_turn =>
              Finished (Returned (extractText (response_content response))) s
          | tool_use =>
              match run_tools o (response_content response) with
              | None => OutsideSchema
              | Some tools =>
                  match tools (world s) with
                  | (Returned toolResults, w) =>
                      sendMessage_loop o fuel
                        (push (ToolResultsMessage toolResults) (set_world w s))
                  | (Thrown e, w) => Finished (Thrown e) (set_world w s)
                  end
              end
          | max_tokens =>
              Finished
                (Returned (extractText (response_content response)
                           +:+ truncation_notice)) s
          | other_stop =>
              Finished (Returned (extractText (response_content response))) s
          end
      end
  end.

Definition sendMessage (o : Oracle) (fuel : nat) (userMessage : string)
    (s : Session) : Exchange :=
  sendMessage_loop o fuel (push (UserMessage userMessage) s).

Definition getConversationHistory (s : Session) : list MessageParam :=
  conversationHistory s.

(** * Notions of the statements *)

(** ** Records and mutations *)

(** The change a successful call makes to the record it loads; the fields a
    constructor does not mention are those of the loaded record. *)
Inductive mutation : Call → IncidentMemory → IncidentMemory → Prop :=
  | mutation_timeline p m tl :
      mutation (AddTimelineEvent p) m (set_timeline tl m)
  | mutation_propose p m proposed_at :
      mutation (ProposeHypothesis p) m
        (set_hypotheses
           (hypotheses m ++
              [ mkHypothesis (generateHypothesisId m) (ph_title p) proposed_at
                  (ph_proposed_by p) hyp_investigating (ph_confidence p)
                  (ph_initial_evidence p) [] None ]) m)
  | mutation_update p m i h se ce c :
      find_hypothesis (uh_hypothesis_id p) (hypotheses m) = Some (i, h) →
      mutation (UpdateHypothesis p) m
        (set_hypotheses
           (<[i := mkHypothesis (hyp_id h) (hyp_title h) (hyp_proposed_at h)
                     (hyp_proposed_by h) (hyp_status h) c se ce
                     (hyp_ruled_out_at h)]> (hypotheses m)) m)
  | mutation_rule_out p m i h now :
      find_hypothesis (ro_hypothesis_id p) (hypotheses m) = Some (i, h) →
      mutation (RuleOutHypothesis p) m
        (set_ruled_out
           (ruled_out m ++ [mkRuledOutEntry (hyp_title h) (ro_param_reason p) now])
           (set_hypotheses
              (<[i := set_hyp_ruled_out_at now (set_hyp_status hyp_ruled_out h)]>
                 (hypotheses m)) m))
  | mutation_confirm p m i h t tl :
      find_hypothesis (cr_hypothesis_id p) (hypotheses m) = Some (i, h) →
      mutation (ConfirmRootCause p) m
        (set_timeline tl
           (set_tldr t
              (set_metadata (set_status resolved (metadata m))
                 (set_hypotheses
                    (<[i := set_hyp_status confirmed_root_cause h]>
                       (hypotheses m)) m))))
  | mutation_finding p m fs :
      mutation (AddFinding p) m (set_findings fs m)
  | mutation_tldr p m t :
      mutation (UpdateTLDR p) m (set_tldr t m).

(** A record as [createIncident] writes it. *)
Definition fresh_record (m : IncidentMemory) : Prop :=
  status (metadata m) = investigating ∧ hypotheses m = [] ∧
  findings m = [] ∧ ruled_out m = [] ∧
  ∃ e, timeline m = [e].

(** Every file is stored under the id it carries. *)
Definition wf_files (w : World) : Prop :=
  ∀ k m, files w !! k = Some m → incident_id m = k.

(** The fields of a hypothesis that no operation assigns. *)
Definition same_identity (h h' : HypothesisRec) : Prop :=
  hyp_id h' = hyp_id h ∧ hyp_title h' = hyp_title h ∧
  hyp_proposed_at h' = hyp_proposed_at h ∧
  hyp_proposed_by h' = hyp_proposed_by h.

(** How the status and the rule-out stamp of the hypothesis at index [j] of
    [m] change under call [c]: not at all, or [c] is the [ruleOutHypothesis]
    or the [confirmRootCause] whose [find] returns that hypothesis. *)
Definition status_step (c : Call) (m : IncidentMemory) (j : nat)
    (h h' : HypothesisRec) : Prop :=
  (hyp_status h' = hyp_status h ∧ hyp_ruled_out_at h' = hyp_ruled_out_at h)
  ∨ (∃ p, c = RuleOutHypothesis p ∧
       find_hypothesis (ro_hypothesis_id p) (hypotheses m) = Some (j, h) ∧
       hyp_status h' = hyp_ruled_out ∧ is_Some (hyp_ruled_out_at h'))
  ∨ (∃ p, c = ConfirmRootCause p ∧
       find_hypothesis (cr_hypothesis_id p) (hypotheses m) = Some (j, h) ∧
       hyp_status h' = confirmed_root_cause ∧
       hyp_ruled_out_at h' = hyp_ruled_out_at h).

(** ** Guarded runs *)


(** The calls of a run satisfy [G], each in the world it is made in. *)
Fixpoint guarded (G : World → Call → Prop) (cs : list Call) (w : World) : Prop :=
  match cs with
  | [] => True
  | c :: cs => G w c ∧ guarded G cs (step c w)
  end.

(** The call does not create a record under the id [k]. *)
Definition keeps (k : string) (w : World) (c : Call) : Prop :=
  creates c w ≠ Some k.



(** ** Invariants of a record *)




(** Hypothesis ids are the positions, counted from one. *)
Definition ids_by_position (m : IncidentMemory) : Prop :=
  ∀ j h, hypotheses m !! j = Some h → hyp_id h = "hyp_" +:+ pretty (j + 1).

(** Each hypothesis of [m] is found in [m'] at the same index with the same
    id, title, proposer and proposal time, and has not gone back to
    [investigating]. *)
Definition descends (m m' : IncidentMemory) : Prop :=
  ∀ j h, hypotheses m !! j = Some h →
    ∃ h', hypotheses m' !! j = Some h' ∧ same_identity h h' ∧
          (hyp_status h ≠ hyp_investigating →
           hyp_status h' ≠ hyp_investigating).

(** ** The order of the timeline *)

(** Lexical order on timestamps, and a timeline in ascending order. *)
Definition lexical_le (a b : string) : Prop := String.compare a b ≠ Gt.

Definition timestamp_le (a b : TimelineEvent) : Prop :=
  lexical_le (ev_timestamp a) (ev_timestamp b).

Definition timeline_sorted (tl : list TimelineEvent) : Prop :=
  StronglySorted timestamp_le tl.

(** The comparator that [addTimelineEvent] hands to [sort]. *)
Definition by_timestamp (a b : TimelineEvent) : Z :=
  localeCompare (ev_timestamp a) (ev_timestamp b).

(** ** Scenarios *)

(** A host whose clock advances one minute per reading and whose MCP server
    reports no tool and answers every call with the text [pong]. *)
Definition demo_host : Host :=
  {| toISOString_now := λ n,
       "2026-02-02T07:" +:+ (if (n <? 10)%nat then "0" else "") +:+ pretty n
       +:+ ":00.000Z";
     date_now_36 := λ _, "ml4yq2o0";
     math_random_36 := λ _, "k3f9";
     listTools := [];
     callTool := λ _ _, Returned (mkMcpReply (Some [TextContent "pong"]));
     json_parses := λ _, false |}.

Definition demo_world : World := mkWorld ∅ demo_host 0.

Definition demo_id : string := "inc_ml4yq2o0_k3f9".

Definition demo_create : Call :=
  CreateIncident
    {| ci_name := "Checkout 500 Errors";
       ci_severity := sev_critical;
       ci_affected_services := ["checkout-api"];
       ci_investigator := "alice";
       ci_initial_description := "Users report 500s at checkout" |}.

Definition demo_propose : Call :=
  ProposeHypothesis
    {| ph_incident_id := demo_id;
       ph_title := "DB pool exhaustion";
       ph_proposed_by := by_agent;
       ph_initial_evidence := ["connection timeouts"];
       ph_confidence := conf_medium |}.

Definition demo_rule_out : Call :=
  RuleOutHypothesis
    {| ro_incident_id := demo_id;
       ro_hypothesis_id := "hyp_1";
       ro_param_reason := "timeouts unrelated to pool size" |}.

Definition demo_confirm : Call :=
  ConfirmRootCause {| cr_incident_id := demo_id; cr_hypothesis_id := "hyp_1" |}.

(** An event stamped later than the clock of the host will read. *)
Definition demo_late_event : Call :=
  AddTimelineEvent
    {| te_incident_id := demo_id;
       te_event := "Deploy window closes";
       te_source := src_user;
       te_details := "announced end of the deploy window";
       te_timestamp := Some "2026-02-02T09:00:00.000Z" |}.

Definition demo_proposed : World := run [demo_create; demo_propose] demo_world.
Definition demo_confirmed : World := step demo_confirm demo_proposed.
Definition demo_ruled_out : World := step demo_rule_out demo_proposed.

(** The run on which [confirmRootCause] leaves the timeline out of order:
    an event stamped 09:00 is added just after 07:00, and the root cause is
    confirmed at 07:05. *)
Definition demo_late_run : list Call :=
  [demo_create; demo_late_event; demo_propose].

(** ** Tactics that run the operations *)

Ltac unfold_monad :=
  unfold fmap, M_fmap, mbind, M_bind, mret, M_ret, throw, utcNow,
    dateNow36, mathRandom36, loadMemory, saveMemory, tick in *.

Ltac unfold_ops :=
  unfold createIncident, addTimelineEvent, proposeHypothesis, updateHypothesis,
    ruleOutHypothesis, confirmRootCause, addFinding, updateTLDR, getIncident,
    getHypotheses, getTimeline, generateIncidentId in *;
  unfold_monad.

Ltac case_load :=
  repeat match goal with
    | |- context [files ?w !! ?k] =>
        lazymatch goal with
        | H : files w !! k = _ |- _ => rewrite H
        | _ => destruct (files w !! k) eqn:?
        end; simpl
    | |- context [find_hypothesis ?id ?l] =>
        lazymatch goal with
        | H : find_hypothesis id l = _ |- _ => rewrite H
        | _ => let i := fresh "i" in let h := fresh "h" in
               destruct (find_hypothesis id l) as [[i h]|] eqn:?
        end; simpl
    | |- context [match te_timestamp ?p with _ => _ end] =>
        destruct (te_timestamp p); simpl
    end.

(** ** What a record keeps and gathers *)

(** The hypothesis a call names ([updateHypothesis], [ruleOutHypothesis] and
    [confirmRootCause] name one). *)
Definition call_hypothesis (c : Call) : option string :=
  match c with
  | UpdateHypothesis p => Some (uh_hypothesis_id p)
  | RuleOutHypothesis p => Some (ro_hypothesis_id p)
  | ConfirmRootCause p => Some (cr_hypothesis_id p)
  | _ => None
  end.

(** From [m] to [m'] the fields written at creation are kept, a [resolved]
    status is kept, no timeline event is lost, and the findings, the audit
    log and the hypotheses only get longer. *)
Definition grows (m m' : IncidentMemory) : Prop :=
  incident_id m' = incident_id m ∧
  incident_name m' = incident_name m ∧
  started_at (metadata m') = started_at (metadata m) ∧
  severity (metadata m') = severity (metadata m) ∧
  affected_services (metadata m') = affected_services (metadata m) ∧
  investigator (metadata m') = investigator (metadata m) ∧
  (status (metadata m) = resolved → status (metadata m') = resolved) ∧
  timeline m ⊆+ timeline m' ∧
  findings m `prefix_of` findings m' ∧
  ruled_out m `prefix_of` ruled_out m' ∧
  (length (hypotheses m) ≤ length (hypotheses m'))%nat.

(** The timeline holds the entry that [confirmRootCause] writes. *)
Definition confirmation_logged (m : IncidentMemory) : Prop :=
  ∃ e, e ∈ timeline m ∧ ev_event e = "Root cause confirmed" ∧
       ev_source e = src_user.

(** The timeline holds the entry that [createIncident] writes, stamped with
    the start of the incident. *)
Definition start_logged (m : IncidentMemory) : Prop :=
  ∃ e, e ∈ timeline m ∧ ev_event e = "Investigation started" ∧
       ev_source e = src_user ∧ ev_timestamp e = started_at (metadata m).

(** Every rule-out stamp on a hypothesis has its entry in the audit log,
    under the title of the hypothesis. *)
Definition stamps_audited (m : IncidentMemory) : Prop :=
  ∀ h t, h ∈ hypotheses m → hyp_ruled_out_at h = Some t →
    ∃ r, r ∈ ruled_out m ∧ ro_hypothesis r = hyp_title h ∧
         ro_ruled_out_at r = t.

(** ** The place of a new timeline event *)

(** Event [x] is not after event [e]: the comparator of [addTimelineEvent]
    does not put [x] behind [e]. *)
Definition not_after (e x : TimelineEvent) : Prop := (by_timestamp x e <= 0)%Z.

#[global] Instance not_after_dec e x : Decision (not_after e x).
Proof. unfold not_after. apply _. Defined.

(** ** Ids that are file names, timestamps of one shape *)

(** The characters of the ids that [generateIncidentId] writes, [inc_] and
    two numbers in base 36: digits, lower-case letters and the underscore;
    the hyphen is admitted as well. *)
Definition id_char (c : Ascii.ascii) : bool :=
  let n := Ascii.nat_of_ascii c in
  ((48 <=? n)%nat && (n <=? 57)%nat) || ((97 <=? n)%nat && (n <=? 122)%nat)
  || (n =? 95)%nat || (n =? 45)%nat.

Fixpoint id_chars (s : string) : bool :=
  match s with
  | EmptyString => true
  | String c s' => id_char c && id_chars s'
  end.

Definition plain_idb (id : string) : bool :=
  id_chars id && (String.length id <=? 250)%nat.

(** A plain id is made of these characters and has at most 250 of them.
    [<id>.json] is then one file name of at most 255 bytes with no path
    separator, no dot before [.json] and no upper-case letter: [join] leaves
    it as it is, [readFile] fails on it only when the file is missing, and
    two plain ids name two files, also where the file system does not tell
    upper case from lower case. *)
Definition plain_id (id : string) : Prop := plain_idb id = true.

(** All the records of the directory are stored under plain ids. *)
Definition plain_files (w : World) : Prop :=
  ∀ k, is_Some (files w !! k) → plain_id k.

(** The incident that a call names, if it names one, is named by a plain
    id. *)
Definition names_plain (c : Call) : Prop :=
  ∀ id, call_incident c = Some id → plain_id id.

Definition is_digit (c : Ascii.ascii) : bool :=
  let n := Ascii.nat_of_ascii c in (48 <=? n)%nat && (n <=? 57)%nat.

(** [has_shape shape s]: [s] has the length of [shape], a digit wherever
    [shape] has the letter [d], and the character of [shape] elsewhere. *)
Fixpoint has_shape (shape s : string) : bool :=
  match shape, s with
  | EmptyString, EmptyString => true
  | String p shape', String c s' =>
      (if Ascii.eqb p "d"%char then is_digit c else Ascii.eqb p c)
      && has_shape shape' s'
  | _, _ => false
  end.

(** The shape of the strings that [Date.prototype.toISOString] writes for
    the years 0000 to 9999, [YYYY-MM-DDTHH:mm:ss.sssZ]: the timestamps of
    [utcNow]. Two strings of this shape differ in digits only. *)
Definition iso_shaped (t : string) : Prop :=
  has_shape "dddd-dd-ddTdd:dd:dd.dddZ" t = true.

(** ** A directory with two incidents *)

(** The host of the scenarios, with a [Date.now()] that changes with every
    reading, so that two incidents get two ids. *)
Definition pair_host : Host :=
  {| toISOString_now := toISOString_now demo_host;
     date_now_36 := λ n, "ml4yq2o" +:+ pretty n;
     math_random_36 := math_random_36 demo_host;
     listTools := listTools demo_host;
     callTool := callTool demo_host;
     json_parses := json_parses demo_host |}.

Definition pair_first : string := "inc_ml4yq2o1_k3f9".
Definition pair_second : string := "inc_ml4yq2o4_k3f9".

Definition pair_propose : Call :=
  ProposeHypothesis
    {| ph_incident_id := pair_first;
       ph_title := "DB pool exhaustion";
       ph_proposed_by := by_agent;
       ph_initial_evidence := ["connection timeouts"];
       ph_confidence := conf_medium |}.

Definition pair_confirm : Call :=
  ConfirmRootCause {| cr_incident_id := pair_first; cr_hypothesis_id := "hyp_1" |}.

(** Two incidents, and a hypothesis on the first. *)
Definition pair_world : World :=
  run [demo_create; demo_create; pair_propose] (mkWorld ∅ pair_host 0).

(** ** Tools and calls *)

(** The name of the memory tool behind a call. *)
Definition tool_of (c : Call) : string :=
  match c with
  | CreateIncident _ => "create_incident"
  | AddTimelineEvent _ => "add_timeline_event"
  | ProposeHypothesis _ => "propose_hypothesis"
  | UpdateHypothesis _ => "update_hypothesis"
  | RuleOutHypothesis _ => "rule_out_hypothesis"
  | ConfirmRootCause _ => "confirm_root_cause"
  | AddFinding _ => "add_finding"
  | UpdateTLDR _ => "update_tldr"
  | GetIncident _ => "get_incident"
  | GetHypotheses _ => "get_hypotheses"
  | GetTimeline _ => "get_timeline"
  end.

(** The tools that only read. *)
Definition read_tools : list string :=
  ["get_incident"; "list_incidents"; "get_hypotheses"; "get_timeline"].

(** ** The shape of a conversation *)

(** The ids of the [tool_use] blocks of a response, in order. *)
Definition tool_use_ids (blocks : list ContentBlock) : list string :=
  omap (λ block, match block with ToolUseBlock id _ _ => Some id | _ => None end)
    blocks.

(** Whether an entry has the role [user]. *)
Definition is_user (message : MessageParam) : bool :=
  match message with AssistantMessage _ => false | _ => true end.

(** Rounds of a response and the results of its tools, every [tool_use]
    block answered by the result of the same id, in the same order. *)
Inductive answered : list MessageParam → Prop :=
  | answered_nil : answered []
  | answered_round blocks results rest :
      tool_use_id <$> results = tool_use_ids blocks →
      answered rest →
      answered (AssistantMessage blocks :: ToolResultsMessage results :: rest).

(** A history in which user and assistant entries alternate, from a user
    entry to an assistant entry. *)
Fixpoint alternates (history : list MessageParam) : Prop :=
  match history with
  | [] => True
  | u :: a :: rest => is_user u = true ∧ is_user a = false ∧ alternates rest
  | [_] => False
  end.

(** A completion service that asks twice for a tool and then ends the turn,
    and a session on the world of the scenario. *)
Definition demo_oracle : Oracle :=
  {| finalMessage := λ history,
       match length history with
       | 1 => Returned
                (mkResponse
                   [ TextBlock "Checking the hypotheses.";
                     ToolUseBlock "toolu_1" "get_hypotheses"
                       {[ "incident_id" := JString demo_id ]};
                     ToolUseBlock "toolu_2" "confirm_root_cause"
                       {[ "incident_id" := JString demo_id;
                          "hypothesis_id" := JString "hyp_1" ]} ]
                   tool_use)
       | 3 => Returned
                (mkResponse
                   [ ToolUseBlock "toolu_3" "restart_server" ∅ ] tool_use)
       | _ => Returned
                (mkResponse
                   [ TextBlock "Root cause confirmed."; TextBlock "Done." ]
                   end_turn)
       end%nat;
     JSON_stringify := λ _, "{}" |}.

Definition demo_session : Session := mkSession [] demo_proposed.

(** A completion service that is down. *)
Definition failing_oracle : Oracle :=
  {| finalMessage := λ _, Thrown "529 overloaded"; JSON_stringify := λ _, "{}" |}.

(** A completion service whose response is cut off in the middle of a tool
    request. *)
Definition truncating_oracle : Oracle :=
  {| finalMessage := λ _,
       Returned
         (mkResponse
            [TextBlock "Confirming."; ToolUseBlock "toolu_9" "confirm_root_cause" ∅]
            max_tokens);
     JSON_stringify := λ _, "{}" |}.

(** * Properties *)

(** ** What one call does to one record *)

Lemma step_files c w :
  files (step c w) = files w
  ∨ (∃ p m', c = CreateIncident p ∧ (createIncident p w).1 = Returned m' ∧
       fresh_record m' ∧ files (step c w) = <[incident_id m' := m']> (files w))
  ∨ (∃ k m m', call_incident c = Some k ∧ files w !! k = Some m ∧
       mutation c m m' ∧
       files (step c w) = <[incident_id m := m']> (files w)).
Proof.
  destruct c; unfold step, perform; unfold_ops; simpl;
    try (right; left; eexists _, _; repeat split; simpl; by eauto);
    try match goal with
      | p : UpdateHypothesisParams |- _ => destruct p as [? ? [?|] [?|] [?|]]
      end; simpl;
    case_load;
    try (left; reflexivity);
    right; right; eexists _, _, _; (split; [reflexivity|]);
    (split; [eassumption|]); (split; [| reflexivity]);
    unfold set_timeline, set_tldr, set_metadata, set_hypotheses, set_findings,
      set_ruled_out; simpl;
    first
      [ refine (mutation_timeline _ _ _)
      | refine (mutation_propose _ _ _)
      | refine (mutation_rule_out _ _ _ _ _ _); eassumption
      | refine (mutation_confirm _ _ _ _ _ _ _); eassumption
      | refine (mutation_finding _ _ _)
      | refine (mutation_tldr _ _ _)
      | idtac ];
    match goal with
    | H : find_hypothesis _ _ = Some (_, ?h) |- _ =>
        destruct h;
        unfold set_hyp_confidence, set_hyp_counter_evidence,
          set_hyp_supporting_evidence; simpl;
        refine (mutation_update (mkUpdateHypothesisParams _ _ _ _ _) _ _ _ _ _ _ H)
    end.
Qed.

Lemma mutation_incident_id c m m' :
  mutation c m m' → incident_id m' = incident_id m.
Proof. by destruct 1. Qed.

Lemma find_hypothesis_Some id hs i h :
  find_hypothesis id hs = Some (i, h) → hs !! i = Some h ∧ hyp_id h = id.
Proof.
  unfold find_hypothesis. intros (Hl & Hp & _)%list_find_Some. done.
Qed.

Lemma wf_files_step c w : wf_files w → wf_files (step c w).
Proof.
  intros Hwf k m'.
  destruct (step_files c w) as [-> | [(p & m0 & _ & _ & _ & ->) |
    (k0 & m & m0 & _ & Hk0 & Hmut & ->)]].
  - apply Hwf.
  - rewrite lookup_insert. case_decide; [naive_solver | apply Hwf].
  - rewrite lookup_insert. case_decide; [| apply Hwf].
    intros [= <-]. subst k. eapply mutation_incident_id; eauto.
Qed.

Lemma reachable_wf w : reachable w → wf_files w.
Proof.
  induction 1 as [w Hempty | c w _ IH].
  - intros k m. by rewrite Hempty, lookup_empty.
  - by apply wf_files_step.
Qed.

(** Where the record found under [k] after a call comes from. *)
Lemma step_lookup c w k m' :
  wf_files w → files (step c w) !! k = Some m' →
  files w !! k = Some m'
  ∨ (fresh_record m' ∧ creates c w = Some k)
  ∨ (∃ m, call_incident c = Some k ∧ files w !! k = Some m ∧ mutation c m m').
Proof.
  intros Hwf.
  destruct (step_files c w) as [-> | [(p & m0 & -> & Hret & Hfresh & ->) |
    (k0 & m & m0 & Hc & Hk0 & Hmut & ->)]]; [by left | |].
  - rewrite lookup_insert. case_decide; [| by left].
    intros [= <-]. right; left. split; [done|].
    unfold creates. by rewrite Hret; subst.
  - rewrite (Hwf _ _ Hk0), lookup_insert. case_decide; [| by left].
    intros [= <-]. subst k0. right; right. eauto.
Qed.

(** What becomes of the record stored under [k] when a call does not create
    a record with that id. *)
Lemma step_keeps c w k m :
  wf_files w → files w !! k = Some m → creates c w ≠ Some k →
  files (step c w) !! k = Some m
  ∨ (∃ m', call_incident c = Some k ∧ mutation c m m' ∧
       files (step c w) !! k = Some m').
Proof.
  intros Hwf Hk Hcr.
  destruct (step_files c w) as [-> | [(p & m0 & -> & Hret & Hfresh & ->) |
    (k0 & m1 & m0 & Hc & Hk0 & Hmut & ->)]]; [by left | |].
  - left. rewrite lookup_insert_ne; [done|].
    intros <-. apply Hcr. unfold creates. by rewrite Hret.
  - rewrite (Hwf _ _ Hk0), lookup_insert. case_decide; [| by left].
    subst k0. right. exists m0. by simplify_eq.
Qed.

(** A property of records that [createIncident] establishes and every
    mutation keeps holds of every stored record of a reachable world. *)
Lemma reachable_record_ind (P : IncidentMemory → Prop) :
  (∀ m, fresh_record m → P m) →
  (∀ c m m', mutation c m m' → P m → P m') →
  ∀ w, reachable w → ∀ k m, files w !! k = Some m → P m.
Proof.
  intros Hfresh Hmut w Hw.
  induction Hw as [w Hempty | c w Hw IH]; intros k m'.
  - by rewrite Hempty, lookup_empty.
  - intros [Hold | [[Hf _] | (m & _ & Hm & Hstep)]]%step_lookup;
      eauto using reachable_wf.
Qed.

(** ** What one call does to one hypothesis *)

Lemma same_identity_refl h : same_identity h h.
Proof. by repeat split. Qed.

Lemma mutation_lookup c m m' j h :
  mutation c m m' → hypotheses m !! j = Some h →
  ∃ h', hypotheses m' !! j = Some h' ∧ same_identity h h' ∧
        status_step c m j h h'.
Proof.
  intros Hmut Hj.
  assert (Hsame : ∃ h', Some h = Some h' ∧ same_identity h h' ∧
                        status_step c m j h h').
  { exists h. split; [done|]. split; [apply same_identity_refl | by left]. }
  destruct Hmut as [p m tl | p m t | p m i h0 se ce cf Hfind | p m i h0 now Hfind
                   | p m i h0 t tl Hfind | p m fs | p m t]; simpl;
    try (by rewrite Hj).
  - rewrite lookup_app_l; [by rewrite Hj | by eapply lookup_lt_Some].
  - destruct (find_hypothesis_Some _ _ _ _ Hfind) as [Hi _].
    destruct (decide (i = j)) as [-> | Hne].
    + rewrite list_lookup_insert_eq by (by eapply lookup_lt_Some).
      simplify_eq. eexists. split; [done|]. split; [by repeat split | by left].
    + rewrite list_lookup_insert_ne by done. by rewrite Hj.
  - destruct (find_hypothesis_Some _ _ _ _ Hfind) as [Hi _].
    destruct (decide (i = j)) as [-> | Hne].
    + rewrite list_lookup_insert_eq by (by eapply lookup_lt_Some).
      simplify_eq. eexists. split; [done|]. split; [by repeat split|].
      right; left. exists p. simpl. eauto.
    + rewrite list_lookup_insert_ne by done. by rewrite Hj.
  - destruct (find_hypothesis_Some _ _ _ _ Hfind) as [Hi _].
    destruct (decide (i = j)) as [-> | Hne].
    + rewrite list_lookup_insert_eq by (by eapply lookup_lt_Some).
      simplify_eq. eexists. split; [done|]. split; [by repeat split|].
      right; right. exists p. simpl. eauto.
    + rewrite list_lookup_insert_ne by done. by rewrite Hj.
Qed.

(** Every hypothesis of the record after a mutation is the one that stood at
    the same index before, or the one that [proposeHypothesis] appends. *)
Lemma mutation_lookup_inv c m m' j h' :
  mutation c m m' → hypotheses m' !! j = Some h' →
  (∃ h, hypotheses m !! j = Some h ∧ same_identity h h' ∧
        status_step c m j h h')
  ∨ (j = length (hypotheses m) ∧ hyp_id h' = generateHypothesisId m ∧
     hyp_status h' = hyp_investigating ∧ hyp_ruled_out_at h' = None ∧
     ∃ p, c = ProposeHypothesis p).
Proof.
  intros Hmut Hj.
  destruct (hypotheses m !! j) as [h|] eqn:Hold.
  - left. exists h. split; [done|].
    destruct (mutation_lookup _ _ _ _ _ Hmut Hold) as (h2 & Hj2 & Hid).
    by simplify_eq.
  - right. apply lookup_ge_None in Hold.
    destruct Hmut as [p m tl | p m t | p m i h0 se ce cf Hfind | p m i h0 now Hfind
                   | p m i h0 t tl Hfind | p m fs | p m t]; simpl in Hj;
      try (apply lookup_lt_Some in Hj; rewrite ?length_insert in Hj; lia).
    rewrite lookup_app_r in Hj by done.
    apply list_lookup_singleton_Some in Hj as [Hj <-]. simpl.
    split; [lia|]. eauto.
Qed.

Lemma mutation_length c m m' :
  mutation c m m' → (length (hypotheses m) ≤ length (hypotheses m'))%nat.
Proof.
  destruct 1; simpl; rewrite ?length_insert, ?length_app; simpl; lia.
Qed.

(** The incident status after a mutation: unchanged, or [resolved] by a
    [confirmRootCause]. *)
Lemma mutation_status c m m' :
  mutation c m m' →
  status (metadata m') = status (metadata m)
  ∨ (status (metadata m') = resolved ∧ ∃ p, c = ConfirmRootCause p).
Proof. destruct 1; simpl; eauto. Qed.


(** ** Runs that respect a guard *)


Lemma reachable_run cs w : reachable w → reachable (run cs w).
Proof.
  revert w. induction cs as [| c cs IH]; intros w Hw; simpl; [done|].
  apply IH. by constructor.
Qed.


(** ** Incident status and confirmed hypotheses *)




(** ** The rule-out stamp *)

Lemma fresh_no_hypothesis m h : fresh_record m → h ∉ hypotheses m.
Proof. intros (_ & -> & _). apply not_elem_of_nil. Qed.



(** ** Reachability of the scenarios *)


Lemma demo_world_reachable : reachable demo_world.
Proof. by constructor. Qed.

Lemma demo_proposed_reachable : reachable demo_proposed.
Proof. apply reachable_run, demo_world_reachable. Qed.

(** ** Incident status: the claim and its amendment *)




(** ** The rule-out stamp: the claim and its amendment *)




(** ** Hypothesis ids and statuses along a run *)

Lemma mutation_ids_by_position c m m' :
  mutation c m m' → ids_by_position m → ids_by_position m'.
Proof.
  intros Hmut IH j h' Hj.
  destruct (mutation_lookup_inv _ _ _ _ _ Hmut Hj)
    as [(h & Hold & (Hid & _) & _) | (-> & Hid & _)].
  - rewrite Hid. by apply IH.
  - done.
Qed.

Lemma reachable_ids_by_position w k m :
  reachable w → files w !! k = Some m → ids_by_position m.
Proof.
  intros Hw Hk. revert w Hw k m Hk.
  apply (reachable_record_ind ids_by_position).
  - intros m (_ & Hh & _) j h. by rewrite Hh, lookup_nil.
  - apply mutation_ids_by_position.
Qed.

Lemma ids_by_position_NoDup m :
  ids_by_position m → NoDup (hyp_id <$> hypotheses m).
Proof.
  intros Hids. apply NoDup_alt. intros i j id.
  rewrite !list_lookup_fmap.
  destruct (hypotheses m !! i) as [hi|] eqn:Hi; [| done].
  destruct (hypotheses m !! j) as [hj|] eqn:Hj; [| done].
  simpl. intros [= <-] [= Heq].
  rewrite (Hids _ _ Hi), (Hids _ _ Hj) in Heq.
  apply (inj (String.app "hyp_")), (inj pretty) in Heq. lia.
Qed.

Lemma descends_refl m : descends m m.
Proof. intros j h Hj. exists h. by repeat split. Qed.

Lemma descends_trans m1 m2 m3 : descends m1 m2 → descends m2 m3 → descends m1 m3.
Proof.
  intros H12 H23 j h Hj.
  destruct (H12 _ _ Hj) as (h2 & Hj2 & (?&?&?&?) & Hs2).
  destruct (H23 _ _ Hj2) as (h3 & Hj3 & (?&?&?&?) & Hs3).
  exists h3. split; [done|]. split; [repeat split; congruence | auto].
Qed.

Lemma mutation_descends c m m' : mutation c m m' → descends m m'.
Proof.
  intros Hmut j h Hj.
  destruct (mutation_lookup _ _ _ _ _ Hmut Hj) as (h' & Hj' & Hid & Hst).
  exists h'. split; [done|]. split; [done|].
  destruct Hst as [[Hs _] | [(p & _ & _ & Hs & _) | (p & _ & _ & Hs & _)]];
    congruence.
Qed.

Lemma run_descends k cs w m :
  reachable w → files w !! k = Some m → guarded (keeps k) cs w →
  ∃ m', files (run cs w) !! k = Some m' ∧ descends m m'.
Proof.
  revert w m. induction cs as [| c cs IH]; intros w m Hw Hk HG; simpl.
  - exists m. split; [done | apply descends_refl].
  - destruct HG as [Hc Hcs].
    destruct (step_keeps c w k m (reachable_wf _ Hw) Hk Hc)
      as [Hsame | (m1 & _ & Hmut & Hk1)].
    + apply IH; [by constructor | done | done].
    + destruct (IH (step c w) m1) as (m' & Hk' & Hd); [by constructor | done..|].
      exists m'. split; [done|].
      eapply descends_trans; [by eapply mutation_descends | done].
Qed.

(** ** Terminal statuses and stable ids *)




(** C6: on an existing record [proposeHypothesis] appends exactly one
    hypothesis, with status [investigating] and with the id [hyp_] followed
    by its position counted from one, and stores the record; in every
    reachable record the hypothesis ids are the positions, hence pairwise
    distinct; and along every run that does not create a record under the
    same incident id each hypothesis keeps its index, id, title, proposer
    and proposal time, so no id passes to another hypothesis. *)
Theorem hypothesis_ids_fresh_and_stable w k m :
  reachable w → files w !! k = Some m →
  (∀ p, ph_incident_id p = k →
     ∃ m' w' (h : HypothesisRec), proposeHypothesis p w = (Returned m', w') ∧
       files w' !! k = Some m' ∧
       hypotheses m' = (hypotheses m ++ [h])%list ∧
       hyp_status h = hyp_investigating ∧
       hyp_id h = "hyp_" +:+ pretty (length (hypotheses m')))
  ∧ (NoDup (hyp_id <$> hypotheses m) ∧
     ∀ j h, hypotheses m !! j = Some h → hyp_id h = "hyp_" +:+ pretty (j + 1))
  ∧ (∀ cs, guarded (keeps k) cs w →
       ∃ m', files (run cs w) !! k = Some m' ∧
         NoDup (hyp_id <$> hypotheses m') ∧
         ∀ j h, hypotheses m !! j = Some h →
           ∃ h', hypotheses m' !! j = Some h' ∧ same_identity h h').
Proof.
  intros Hw Hk.
  pose proof (reachable_ids_by_position w k m Hw Hk) as Hids.
  split; [| split].
  - intros p <-. unfold proposeHypothesis; unfold_monad. rewrite Hk. simpl.
    eexists _, _, _. split; [reflexivity|]. simpl.
    rewrite (reachable_wf _ Hw _ _ Hk), lookup_insert_eq.
    split; [done|]. split; [done|]. split; [done|].
    unfold generateHypothesisId. by rewrite length_app.
  - split; [by apply ids_by_position_NoDup | done].
  - intros cs HG.
    destruct (run_descends k cs w m Hw Hk HG) as (m' & Hk' & Hd).
    exists m'. split; [done|]. split.
    + apply ids_by_position_NoDup.
      eapply reachable_ids_by_position; [by apply reachable_run | done].
    + intros j h Hj. destruct (Hd _ _ Hj) as (h' & ? & ? & _). eauto.
Qed.

(** C6 on the record of the scenario after its first proposal. *)
Lemma hypothesis_ids_fresh_and_stable_witness :
  ∃ m, reachable demo_proposed ∧ files demo_proposed !! demo_id = Some m ∧
    NoDup (hyp_id <$> hypotheses m) ∧
    ∀ j h, hypotheses m !! j = Some h → hyp_id h = "hyp_" +:+ pretty (j + 1).
Proof.
  eexists. split; [exact demo_proposed_reachable|].
  split; [vm_compute; reflexivity|].
  refine (proj1 (proj2 (hypothesis_ids_fresh_and_stable demo_proposed demo_id _
                          demo_proposed_reachable _))).
  vm_compute; reflexivity.
Defined.

(** ** Reads of an absent record *)

(** C3 as the specification states it fails for [getIncident], which hands
    back the [null] of [loadMemory] instead of throwing. *)
Lemma reads_not_found_counterexample :
  ¬ (∀ w incidentId, files w !! incidentId = None →
       ∃ message, (getIncident incidentId w).1 = Thrown message).
Proof.
  intros Hclaim.
  destruct (Hclaim demo_world "inc_never_created" eq_refl) as [message Hthrown].
  discriminate Hthrown.
Qed.

(** The ids that [generateIncidentId] writes from readings in base 36 are
    plain. *)
Lemma id_chars_app a b : id_chars (a +:+ b) = id_chars a && id_chars b.
Proof.
  induction a as [| c a IH]; [reflexivity|].
  change (id_chars (String c a +:+ b)) with (id_char c && id_chars (a +:+ b)).
  change (id_chars (String c a)) with (id_char c && id_chars a).
  by rewrite IH, andb_assoc.
Qed.

Lemma string_length_app a b :
  String.length (a +:+ b) = (String.length a + String.length b)%nat.
Proof. induction a as [| c a IH]; [reflexivity|]. simpl. by rewrite IH. Qed.

Lemma generated_id_plain t r :
  id_chars t = true → id_chars r = true →
  (String.length t + String.length r ≤ 245)%nat →
  plain_id ("inc_" +:+ t +:+ "_" +:+ r).
Proof.
  intros Ht Hr Hlen. unfold plain_id, plain_idb.
  rewrite !id_chars_app, !string_length_app, Ht, Hr. simpl.
  apply Nat.leb_le. lia.
Qed.

(** C3, amended: for a plain incident id (an id that is a file name of its
    own, as the generated ids are) without a record, [getHypotheses] and
    [getTimeline] throw the not-found error, while [getIncident], like the
    store-level [loadMemory], returns the absent result; none of them changes
    the world. For plain ids a missing file is the only way [readFile] fails,
    which is the one failure that [loadMemory] turns into [null]. *)
Theorem reads_of_absent_record w incidentId :
  plain_id incidentId →
  files w !! incidentId = None →
  getHypotheses incidentId w = (Thrown (not_found "Incident" incidentId), w)
  ∧ getTimeline incidentId w = (Thrown (not_found "Incident" incidentId), w)
  ∧ getIncident incidentId w = (Returned None, w)
  ∧ loadMemory incidentId w = (Returned None, w).
Proof.
  intros _ Hnone. unfold getHypotheses, getTimeline, getIncident; unfold_monad.
  by rewrite Hnone.
Qed.

(** The amended C3 on an id that was never created. *)
Lemma reads_of_absent_record_witness :
  plain_id "inc_never_created"
  ∧ files demo_world !! "inc_never_created" = None
  ∧ getHypotheses "inc_never_created" demo_world
    = (Thrown "Incident inc_never_created not found", demo_world)
  ∧ getTimeline "inc_never_created" demo_world
    = (Thrown "Incident inc_never_created not found", demo_world)
  ∧ getIncident "inc_never_created" demo_world = (Returned None, demo_world)
  ∧ loadMemory "inc_never_created" demo_world = (Returned None, demo_world).
Proof.
  split; [reflexivity|]. split; [reflexivity|].
  apply (reads_of_absent_record demo_world "inc_never_created"); reflexivity.
Defined.

(** ** createIncident *)

(** C7: [createIncident] returns and stores a record with status
    [investigating], the description as summary, no hypotheses, findings or
    rule-outs, and a timeline of the single entry "Investigation started"
    from the user with the description as details. *)
Theorem createIncident_record params w :
  ∃ m w' e,
    createIncident params w = (Returned m, w') ∧
    files w' !! incident_id m = Some m ∧
    status (metadata m) = investigating ∧
    summary (tldr m) = ci_initial_description params ∧
    hypotheses m = [] ∧ findings m = [] ∧ ruled_out m = [] ∧
    timeline m = [e] ∧
    ev_event e = "Investigation started" ∧
    ev_source e = src_user ∧
    ev_details e = ci_initial_description params.
Proof.
  unfold createIncident, generateIncidentId; unfold_monad; simpl.
  eexists _, _, _. split; [reflexivity|]. simpl.
  rewrite lookup_insert_eq. by repeat split.
Qed.

(** ** updateHypothesis without optional fields *)

Lemma find_hypothesis_elem id (hs : list HypothesisRec) h :
  h ∈ hs → hyp_id h = id → ∃ i h0, find_hypothesis id hs = Some (i, h0).
Proof.
  intros Hin Hid. unfold find_hypothesis.
  destruct (list_find (λ h, hyp_id h = id) hs) as [[i h0]|] eqn:Hfind; [eauto|].
  apply list_find_None in Hfind.
  rewrite Forall_forall in Hfind. by destruct (Hfind h Hin).
Qed.

(** C8: on a stored record with a hypothesis of the given id,
    [updateHypothesis] without evidence to add and without a new confidence
    returns the record as it was (so the evidence lists and the confidence
    of the hypothesis are what they were) and stores it: a load after the
    call yields the same record as before, and the directory is unchanged. *)
Theorem updateHypothesis_without_fields w incidentId hypothesisId m h :
  reachable w → files w !! incidentId = Some m →
  h ∈ hypotheses m → hyp_id h = hypothesisId →
  ∃ w',
    updateHypothesis
      {| uh_incident_id := incidentId;
         uh_hypothesis_id := hypothesisId;
         uh_add_supporting_evidence := None;
         uh_add_counter_evidence := None;
         uh_new_confidence := None |} w = (Returned m, w') ∧
    loadMemory incidentId w' = (Returned (Some m), w') ∧
    files w' = files w.
Proof.
  intros Hw Hk Hin Hid.
  destruct (find_hypothesis_elem _ _ _ Hin Hid) as (i & h0 & Hfind).
  unfold updateHypothesis; unfold_monad; simpl. rewrite Hk, Hfind. simpl.
  assert (Hm : set_hypotheses (<[i:=h0]> (hypotheses m)) m = m).
  { rewrite list_insert_id by (by apply find_hypothesis_Some in Hfind as [? _]).
    by destruct m. }
  rewrite Hm, (reachable_wf _ Hw _ _ Hk), (insert_id _ _ _ Hk).
  eexists. split; [reflexivity|]. simpl. by rewrite Hk.
Qed.

(** C8 on hypothesis [hyp_1] of the scenario. *)
Lemma updateHypothesis_without_fields_witness :
  ∃ m h w',
    reachable demo_proposed ∧ files demo_proposed !! demo_id = Some m ∧
    h ∈ hypotheses m ∧ hyp_id h = "hyp_1" ∧
    updateHypothesis
      {| uh_incident_id := demo_id;
         uh_hypothesis_id := "hyp_1";
         uh_add_supporting_evidence := None;
         uh_add_counter_evidence := None;
         uh_new_confidence := None |} demo_proposed = (Returned m, w') ∧
    loadMemory demo_id w' = (Returned (Some m), w') ∧
    files w' = files demo_proposed.
Proof.
  assert (Hm : ∃ m h, files demo_proposed !! demo_id = Some m ∧
                      hypotheses m = [h] ∧ hyp_id h = "hyp_1").
  { eexists _, _. split; [vm_compute; reflexivity|]. split; reflexivity. }
  destruct Hm as (m & h & Hk & Hh & Hid).
  assert (Hin : h ∈ hypotheses m) by (rewrite Hh; apply list_elem_of_singleton; done).
  destruct (updateHypothesis_without_fields demo_proposed demo_id "hyp_1" m h
              demo_proposed_reachable Hk Hin Hid) as (w' & Hret & Hload & Hfiles).
  exists m, h, w'.
  repeat (split; [first [assumption | exact demo_proposed_reachable]|]).
  assumption.
Defined.

(** ** The frame of ruleOutHypothesis *)

(** C10: on a stored record with a hypothesis of the given id,
    [ruleOutHypothesis] changes the hypothesis that [find] returns, and of
    it only the status, which becomes [ruled_out], and [ruled_out_at], which
    becomes the current time; it appends one entry to [ruled_out] with the
    title of that hypothesis, the reason and the same time; the id, name,
    metadata, summary, timeline, findings and every other hypothesis are
    those of the stored record. *)
Theorem ruleOutHypothesis_frame w p m h0 :
  files w !! ro_incident_id p = Some m →
  h0 ∈ hypotheses m → hyp_id h0 = ro_hypothesis_id p →
  ∃ m' w' i h now,
    ruleOutHypothesis p w = (Returned m', w') ∧
    files w' = <[incident_id m := m']> (files w) ∧
    now = toISOString_now (host w) (ticks w) ∧
    find_hypothesis (ro_hypothesis_id p) (hypotheses m) = Some (i, h) ∧
    hypotheses m' =
      <[i := mkHypothesis (hyp_id h) (hyp_title h) (hyp_proposed_at h)
               (hyp_proposed_by h) hyp_ruled_out (hyp_confidence h)
               (hyp_supporting_evidence h) (hyp_counter_evidence h)
               (Some now)]> (hypotheses m) ∧
    (∀ j, j ≠ i → hypotheses m' !! j = hypotheses m !! j) ∧
    length (hypotheses m') = length (hypotheses m) ∧
    ruled_out m' =
      (ruled_out m ++
         [mkRuledOutEntry (hyp_title h) (ro_param_reason p) now])%list ∧
    incident_id m' = incident_id m ∧
    incident_name m' = incident_name m ∧
    metadata m' = metadata m ∧
    tldr m' = tldr m ∧
    timeline m' = timeline m ∧
    findings m' = findings m.
Proof.
  intros Hk Hin Hid.
  destruct (find_hypothesis_elem _ _ _ Hin Hid) as (i & h & Hfind).
  unfold ruleOutHypothesis; unfold_monad; simpl. rewrite Hk, Hfind. simpl.
  eexists _, _, i, h, _. split; [reflexivity|]. simpl.
  repeat split; try done.
  - intros j Hne. by rewrite list_lookup_insert_ne.
  - by rewrite length_insert.
Qed.

(** C10 on hypothesis [hyp_1] of the scenario. *)
Lemma ruleOutHypothesis_frame_witness :
  ∃ m h0 m' w',
    files demo_proposed !! demo_id = Some m ∧
    h0 ∈ hypotheses m ∧ hyp_id h0 = "hyp_1" ∧
    ruleOutHypothesis
      {| ro_incident_id := demo_id;
         ro_hypothesis_id := "hyp_1";
         ro_param_reason := "timeouts unrelated to pool size" |} demo_proposed
      = (Returned m', w') ∧
    timeline m' = timeline m ∧ metadata m' = metadata m ∧ tldr m' = tldr m.
Proof.
  assert (Hm : ∃ m h, files demo_proposed !! demo_id = Some m ∧
                      hypotheses m = [h] ∧ hyp_id h = "hyp_1").
  { eexists _, _. split; [vm_compute; reflexivity|]. split; reflexivity. }
  destruct Hm as (m & h & Hk & Hh & Hid).
  assert (Hin : h ∈ hypotheses m) by (rewrite Hh; apply list_elem_of_singleton; done).
  destruct (ruleOutHypothesis_frame demo_proposed
              {| ro_incident_id := demo_id;
                 ro_hypothesis_id := "hyp_1";
                 ro_param_reason := "timeouts unrelated to pool size" |}
              m h Hk Hin Hid)
    as (m' & w' & i & h1 & now & Hret & _ & _ & _ & _ & _ & _ & _ & _ & _ & Hmd
        & Htl & Htime & _).
  exists m, h, m', w'.
  repeat (split; [assumption|]). assumption.
Defined.

(** ** The order of the timeline *)

Lemma lexical_le_trans a b c : lexical_le a b → lexical_le b c → lexical_le a c.
Proof.
  unfold lexical_le. intros Hab Hbc.
  destruct (String.compare a b) eqn:Eab; [| | done].
  - apply String_as_OT.cmp_eq in Eab. by subst.
  - destruct (String.compare b c) eqn:Ebc; [| | done].
    + apply String_as_OT.cmp_eq in Ebc. subst. by rewrite Eab.
    + apply String_as_OT.cmp_lt in Eab, Ebc.
      pose proof (String_as_OT.lt_trans _ _ _ Eab Ebc) as Hac.
      apply String_as_OT.cmp_lt in Hac. unfold String_as_OT.cmp in Hac.
      by rewrite Hac.
Qed.

Lemma by_timestamp_le a b : (by_timestamp a b <=? 0)%Z = true → timestamp_le a b.
Proof.
  unfold by_timestamp, localeCompare, timestamp_le, lexical_le.
  by destruct (String.compare _ _).
Qed.

Lemma by_timestamp_gt a b : (by_timestamp a b <=? 0)%Z = false → timestamp_le b a.
Proof.
  unfold by_timestamp, localeCompare, timestamp_le, lexical_le.
  rewrite (String_as_OT.cmp_antisym (ev_timestamp b)). unfold String_as_OT.cmp.
  by destruct (String.compare _ _).
Qed.

Lemma sort_insert_elem (x y : TimelineEvent) l :
  y ∈ sort_insert by_timestamp x l → y = x ∨ y ∈ l.
Proof.
  induction l as [| z l IH]; simpl.
  - intros ->%list_elem_of_singleton. by left.
  - destruct (by_timestamp x z <=? 0)%Z.
    + intros [-> | Hin]%elem_of_cons; [by left | by right].
    + intros [-> | Hin]%elem_of_cons; [right; by left |].
      destruct (IH Hin) as [-> | Hin']; [by left | right; by right].
Qed.

Lemma sort_insert_sorted x l :
  timeline_sorted l → timeline_sorted (sort_insert by_timestamp x l).
Proof.
  unfold timeline_sorted.
  induction 1 as [| z l Hl IH Hz]; simpl.
  - repeat constructor.
  - destruct (by_timestamp x z <=? 0)%Z eqn:Hcmp.
    + apply by_timestamp_le in Hcmp. constructor; [by constructor|].
      constructor; [done|].
      eapply Forall_impl; [exact Hz|]. intros y Hy.
      by eapply lexical_le_trans.
    + apply by_timestamp_gt in Hcmp. constructor; [done|].
      apply Forall_forall. intros y [-> | Hin]%sort_insert_elem; [done|].
      rewrite Forall_forall in Hz. by apply Hz.
Qed.

Lemma sort_sorted l : timeline_sorted (sort by_timestamp l).
Proof.
  induction l as [| x l IH]; simpl; [constructor | by apply sort_insert_sorted].
Qed.

Lemma sort_insert_Permutation {A} (f : A → A → Z) x l :
  sort_insert f x l ≡ₚ x :: l.
Proof.
  induction l as [| y l IH]; simpl; [done|].
  destruct (f x y <=? 0)%Z; [done|]. by rewrite IH, Permutation_swap.
Qed.

Lemma sort_Permutation {A} (f : A → A → Z) l : sort f l ≡ₚ l.
Proof.
  induction l as [| x l IH]; simpl; [done|].
  by rewrite sort_insert_Permutation, IH.
Qed.

(** What holds of C4: whatever the timeline was and whatever timestamp the
    caller supplies, the timeline that [addTimelineEvent] returns and stores
    is in ascending lexical order and holds the former events and the new
    one. *)
Lemma addTimelineEvent_sorted w p m :
  files w !! te_incident_id p = Some m →
  ∃ m' w' e,
    addTimelineEvent p w = (Returned m', w') ∧
    files w' = <[incident_id m := m']> (files w) ∧
    timeline_sorted (timeline m') ∧
    timeline m' ≡ₚ timeline m ++ [e] ∧
    ev_event e = te_event p ∧ ev_source e = te_source p ∧
    ev_details e = te_details p ∧
    ev_timestamp e =
      default (toISOString_now (host w) (ticks w)) (te_timestamp p).
Proof.
  intros Hk. unfold addTimelineEvent; unfold_monad. rewrite Hk. simpl.
  destruct (te_timestamp p) as [t|]; simpl;
    (eexists _, _, _; split; [reflexivity|]; simpl;
     split; [done|]; split; [apply sort_sorted|];
     split; [apply sort_Permutation | done]).
Qed.

(** C4 fails on [confirmRootCause]: the timeline it finds is in ascending
    order and the timeline it stores is not, its own entry, stamped with the
    current time, standing after an entry with a later timestamp. *)
Theorem confirmRootCause_timeline_unsorted :
  ∃ m m',
    files (run demo_late_run demo_world) !! demo_id = Some m ∧
    timeline_sorted (timeline m) ∧
    confirmRootCause
      {| cr_incident_id := demo_id; cr_hypothesis_id := "hyp_1" |}
      (run demo_late_run demo_world)
    = (Returned m', step demo_confirm (run demo_late_run demo_world)) ∧
    files (step demo_confirm (run demo_late_run demo_world)) !! demo_id
    = Some m' ∧
    (ev_timestamp <$> timeline m') =
      ["2026-02-02T07:00:00.000Z"; "2026-02-02T09:00:00.000Z";
       "2026-02-02T07:05:00.000Z"] ∧
    ¬ timeline_sorted (timeline m').
Proof.
  eexists _, _. split; [vm_compute; reflexivity|].
  split; [repeat constructor; by vm_compute|].
  split; [vm_compute; reflexivity|].
  split; [vm_compute; reflexivity|].
  split; [reflexivity|].
  intros Hsorted. unfold timeline_sorted in Hsorted. simpl in Hsorted.
  apply StronglySorted_inv in Hsorted as [Hsorted _].
  apply StronglySorted_inv in Hsorted as [_ Hlate].
  apply Forall_inv in Hlate. by vm_compute in Hlate.
Qed.

(** ** Dispatch *)

Lemma not_memory_tool toolName toolInput :
  toolName ∉ memoryToolNames →
  executeMemoryTool toolName toolInput
  = Some (throw ("Unknown memory tool: " +:+ toolName)).
Proof.
  unfold memoryToolNames. rewrite elem_of_list_to_set. simpl.
  rewrite !not_elem_of_cons. intros Hne.
  unfold executeMemoryTool.
  repeat (case_decide; [exfalso; intuition congruence|]). done.
Qed.

Lemma try_catch_returns {A} (c : M A) (handler : string → M A) w :
  (∀ message w', ∃ a, (handler message w').1 = Returned a) →
  ∃ a, (try_catch c handler w).1 = Returned a.
Proof.
  intros Hh. unfold try_catch. destruct (c w) as [[a | message] w']; simpl; eauto.
Qed.

(** C9 as the specification states it fails: a name that is neither a
    memory tool nor a tool the MCP server lists is forwarded to the server
    all the same, and the call ends with what the server answers; here the
    text [pong], which is no error, neither thrown nor returned. *)
Lemma unknown_tool_counterexample :
  ¬ (∀ w toolName toolInput c,
       toolName ∉ memoryToolNames → toolName ∉ listTools (host w) →
       executeTool toolName toolInput = Some c →
       ∃ message, (c w).1 = Thrown message
                  ∨ (c w).1 = Returned (ResError message)).
Proof.
  intros Hclaim.
  assert (Hmem : "restart_server" ∉ memoryToolNames).
  { unfold memoryToolNames. rewrite elem_of_list_to_set. simpl.
    rewrite !not_elem_of_cons. repeat split; try discriminate.
    apply not_elem_of_nil. }
  destruct (Hclaim demo_world "restart_server" ∅ _ Hmem (not_elem_of_nil _) eq_refl)
    as [message [Hthrown | Herror]]; discriminate.
Qed.

(** C9, amended: a name of [memoryTools] is routed to [executeMemoryTool];
    every other name, whether or not the MCP server lists it, is forwarded
    with its input to [executeMcpTool], and the call ends with what the
    server answers; in both cases a thrown error is caught and returned as
    an error object, so [executeTool] never throws. The error "Unknown
    memory tool" is what [executeMemoryTool] itself throws for a name outside
    [memoryTools], which [executeTool] never passes to it. *)
Theorem tool_dispatch toolName toolInput :
  (toolName ∈ memoryToolNames →
     executeTool toolName toolInput
     = (c ← executeMemoryTool toolName toolInput;
        Some (try_catch c as_error_object)))
  ∧ (toolName ∉ memoryToolNames →
       executeTool toolName toolInput
       = Some (try_catch (executeMcpTool toolName toolInput) as_error_object)
       ∧ executeMemoryTool toolName toolInput
         = Some (throw ("Unknown memory tool: " +:+ toolName)))
  ∧ (∀ c w, executeTool toolName toolInput = Some c →
       ∃ result, (c w).1 = Returned result).
Proof.
  split; [| split].
  - intros Hin. unfold executeTool. by rewrite decide_True.
  - intros Hout. split; [| by apply not_memory_tool].
    unfold executeTool. by rewrite decide_False.
  - intros c w. unfold executeTool.
    destruct (if decide (toolName ∈ memoryToolNames) then _ else _)
      as [routed|]; simpl; [| done].
    intros [= <-]. apply try_catch_returns.
    intros message w'. by eexists.
Qed.

(** The amended C9 on a memory tool and on a name nobody provides. *)
Lemma tool_dispatch_witness :
  ("get_hypotheses" ∈ memoryToolNames)
  ∧ ("restart_server" ∉ memoryToolNames)
  ∧ executeTool "get_hypotheses" {[ "incident_id" := JString "inc_never_created" ]}
    = (c ← executeMemoryTool "get_hypotheses"
             {[ "incident_id" := JString "inc_never_created" ]};
       Some (try_catch c as_error_object))
  ∧ executeTool "restart_server" ∅
    = Some (try_catch (executeMcpTool "restart_server" ∅) as_error_object)
  ∧ executeMemoryTool "restart_server" ∅
    = Some (throw "Unknown memory tool: restart_server").
Proof.
  assert (Hin : "get_hypotheses" ∈ memoryToolNames).
  { unfold memoryToolNames. rewrite elem_of_list_to_set. simpl.
    rewrite !elem_of_cons. do 10 right. by left. }
  assert (Hout : "restart_server" ∉ memoryToolNames).
  { unfold memoryToolNames. rewrite elem_of_list_to_set. simpl.
    rewrite !not_elem_of_cons. repeat split; try discriminate.
    apply not_elem_of_nil. }
  split; [exact Hin|]. split; [exact Hout|].
  split.
  - exact (proj1 (tool_dispatch "get_hypotheses"
                    {[ "incident_id" := JString "inc_never_created" ]}) Hin).
  - exact (proj1 (proj2 (tool_dispatch "restart_server" ∅)) Hout).
Defined.

(** The dispatch on the scenario: the error of a memory operation comes back
    as an object, and an unlisted name comes back with the answer of the
    server. *)
Example executeTool_get_hypotheses_absent :
  (λ c : M ToolResult, (c demo_world).1)
    <$> executeTool "get_hypotheses"
          {[ "incident_id" := JString "inc_never_created" ]}
  = Some (Returned (ResError "Incident inc_never_created not found")).
Proof. vm_compute. reflexivity. Qed.

Example executeTool_unlisted_name :
  (λ c : M ToolResult, (c demo_world).1) <$> executeTool "restart_server" ∅
  = Some (Returned (ResText "pong")).
Proof. vm_compute. reflexivity. Qed.

(** * Further properties of the code *)

(** ** Errors of the operations *)

(** X1: a call that names, by a plain id, an incident without a record
    throws "Incident <id> not found" and leaves the world as it is, without
    reading the clock; [getIncident] alone returns [null]. *)
Theorem perform_absent_incident c k w :
  call_incident c = Some k → plain_id k → files w !! k = None →
  perform c w =
    (match c with
     | GetIncident _ => Returned ResNull
     | _ => Thrown (not_found "Incident" k)
     end, w).
Proof.
  intros Hc _ Hk.
  destruct c; simpl in Hc; simplify_eq; unfold perform; unfold_ops;
    by rewrite Hk.
Qed.

(** The scenario: a call on an id that was never created. *)
Lemma perform_absent_incident_witness :
  plain_id demo_id ∧ files demo_world !! demo_id = None
  ∧ perform demo_propose demo_world
    = (Thrown "Incident inc_ml4yq2o0_k3f9 not found", demo_world).
Proof.
  split; [reflexivity|]. split; [reflexivity|].
  exact (perform_absent_incident demo_propose demo_id demo_world
           eq_refl eq_refl eq_refl).
Defined.

Lemma find_hypothesis_absent id (hs : list HypothesisRec) :
  (∀ h, h ∈ hs → hyp_id h ≠ id) → find_hypothesis id hs = None.
Proof.
  intros Hne. unfold find_hypothesis. apply list_find_None, Forall_forall.
  exact Hne.
Qed.

(** X2: [updateHypothesis], [ruleOutHypothesis] and [confirmRootCause] on a
    stored record that has no hypothesis of the named id throw "Hypothesis
    <id> not found" and leave the world as it is: nothing is written and the
    clock is not read. *)
Theorem perform_absent_hypothesis c k id w m :
  call_incident c = Some k → call_hypothesis c = Some id →
  files w !! k = Some m → (∀ h, h ∈ hypotheses m → hyp_id h ≠ id) →
  perform c w = (Thrown (not_found "Hypothesis" id), w).
Proof.
  intros Hc Hh Hk Hne. apply find_hypothesis_absent in Hne.
  destruct c; simpl in Hc, Hh; simplify_eq; unfold perform; unfold_ops;
    by rewrite Hk, Hne.
Qed.

Lemma perform_absent_hypothesis_witness :
  ∃ m, files demo_proposed !! demo_id = Some m ∧
    perform
      (ConfirmRootCause {| cr_incident_id := demo_id; cr_hypothesis_id := "hyp_2" |})
      demo_proposed
    = (Thrown "Hypothesis hyp_2 not found", demo_proposed).
Proof.
  eexists. split; [vm_compute; reflexivity|].
  refine (perform_absent_hypothesis
            (ConfirmRootCause
               {| cr_incident_id := demo_id; cr_hypothesis_id := "hyp_2" |})
            demo_id "hyp_2" demo_proposed _ eq_refl eq_refl _ _).
  - vm_compute; reflexivity.
  - intros h ->%list_elem_of_singleton. discriminate.
Defined.

(** ** What a record keeps and gathers along a run *)

Lemma grows_refl m : grows m m.
Proof. by repeat split. Qed.

Lemma grows_trans m1 m2 m3 : grows m1 m2 → grows m2 m3 → grows m1 m3.
Proof.
  intros (?&?&?&?&?&?&?&?&?&?&?) (?&?&?&?&?&?&?&?&?&?&?).
  repeat split; try congruence; try (by etrans); auto.
Qed.

(** [step_files] with the timeline, the findings and the audit log followed
    exactly: the record that a call stores has grown from the one it loaded,
    and a [confirmRootCause] has logged its entry. *)
Lemma step_files_grows c w :
  files (step c w) = files w
  ∨ (∃ p m', c = CreateIncident p ∧ (createIncident p w).1 = Returned m' ∧
       fresh_record m' ∧ start_logged m' ∧
       files (step c w) = <[incident_id m' := m']> (files w))
  ∨ (∃ k m m', call_incident c = Some k ∧ files w !! k = Some m ∧
       files (step c w) = <[incident_id m := m']> (files w) ∧
       mutation c m m' ∧ grows m m' ∧
       ((∃ p, c = ConfirmRootCause p) → confirmation_logged m')).
Proof.
  destruct c as [p | p | p | p | p | p | p | p | id | id | id].
  1: { right; left. unfold step, perform; unfold_ops; simpl.
       eexists _, _. split; [done|]. split; [done|].
       split; [repeat split; simpl; eauto|]. split; [| done].
       eexists. split; [by apply list_elem_of_singleton | done]. }
  all: unfold step, perform; unfold_ops; simpl;
    try match goal with
      | p : UpdateHypothesisParams |- _ => destruct p as [? ? [?|] [?|] [?|]]
      end; simpl;
    case_load;
    try (left; reflexivity);
    right; right; eexists _, _, _; (split; [reflexivity|]);
    (split; [eassumption|]); (split; [reflexivity|]);
    (split; [| split]).
  all: try (intros [? [=]]).
  all: try (unfold grows; simpl; repeat split; try done;
            rewrite ?length_insert, ?length_app; simpl; try lia;
            first [ by apply prefix_app_r
                  | rewrite ?sort_Permutation; by apply submseteq_inserts_r ]).
  all: try (unfold set_timeline, set_tldr, set_metadata, set_hypotheses,
              set_findings, set_ruled_out; simpl;
            first
              [ refine (mutation_timeline _ _ _)
              | refine (mutation_propose _ _ _)
              | refine (mutation_rule_out _ _ _ _ _ _); eassumption
              | refine (mutation_confirm _ _ _ _ _ _ _); eassumption
              | refine (mutation_finding _ _ _)
              | refine (mutation_tldr _ _ _)
              | match goal with
                | H : find_hypothesis _ _ = Some (_, ?h) |- mutation _ _ _ =>
                    destruct h;
                    unfold set_hyp_confidence, set_hyp_counter_evidence,
                      set_hyp_supporting_evidence; simpl;
                    refine (mutation_update (mkUpdateHypothesisParams _ _ _ _ _)
                              _ _ _ _ _ _ H)
                end ]).
  eexists. split.
  - simpl. apply elem_of_app. right. by apply list_elem_of_singleton.
  - done.
Qed.

Lemma step_keeps_grows c w k m :
  wf_files w → files w !! k = Some m → keeps k w c →
  ∃ m', files (step c w) !! k = Some m' ∧ grows m m'.
Proof.
  intros Hwf Hk Hc.
  destruct (step_files_grows c w) as [-> | [(p & m0 & -> & Hret & _ & _ & ->) |
    (k0 & m1 & m0 & _ & Hk0 & -> & _ & Hg & _)]].
  - exists m. split; [done | apply grows_refl].
  - exists m. split; [| apply grows_refl]. rewrite lookup_insert_ne; [done|].
    intros <-. apply Hc. unfold creates. by rewrite Hret.
  - rewrite (Hwf _ _ Hk0), lookup_insert. case_decide.
    + subst k0. simplify_eq. eauto.
    + exists m. split; [done | apply grows_refl].
Qed.

Lemma run_grows k cs w m :
  reachable w → files w !! k = Some m → guarded (keeps k) cs w →
  ∃ m', files (run cs w) !! k = Some m' ∧ grows m m'.
Proof.
  revert w m. induction cs as [| c cs IH]; intros w m Hw Hk HG; simpl.
  - exists m. split; [done | apply grows_refl].
  - destruct HG as [Hc Hcs].
    destruct (step_keeps_grows c w k m (reachable_wf _ Hw) Hk Hc)
      as (m1 & Hk1 & Hg1).
    destruct (IH (step c w) m1) as (m' & Hk' & Hg); [by constructor | done..|].
    exists m'. split; [done | by eapply grows_trans].
Qed.

(** A property of records that [createIncident] establishes and every
    mutation keeps, given what [step_files_grows] tells of the mutation,
    holds of every stored record of a reachable world. *)
Lemma reachable_grown_ind (P : IncidentMemory → Prop) :
  (∀ m, fresh_record m → start_logged m → P m) →
  (∀ c m m', mutation c m m' → grows m m' →
     ((∃ p, c = ConfirmRootCause p) → confirmation_logged m') → P m → P m') →
  ∀ w, reachable w → ∀ k m, files w !! k = Some m → P m.
Proof.
  intros Hfresh Hmut w Hw.
  induction Hw as [w Hempty | c w Hw IH]; intros k m'.
  - by rewrite Hempty, lookup_empty.
  - pose proof (reachable_wf _ Hw) as Hwf.
    destruct (step_files_grows c w) as [-> | [(p & m0 & -> & _ & Hf & Hs & ->) |
      (k0 & m1 & m0 & _ & Hk0 & -> & Hm & Hg & Hc)]]; [apply IH | |].
    + rewrite lookup_insert. case_decide; [| apply IH].
      intros [= <-]. by apply Hfresh.
    + rewrite lookup_insert. case_decide; [| apply IH].
      intros [= <-]. eapply Hmut; eauto.
Qed.

(** X4: along every run that does not create a record under the same id
    again, a stored record keeps what [createIncident] wrote once: its id,
    its name, the start time, the severity, the affected services and the
    investigator. No operation edits them. *)
Theorem creation_fields_kept w k m cs :
  reachable w → files w !! k = Some m → guarded (keeps k) cs w →
  ∃ m', files (run cs w) !! k = Some m' ∧
    incident_id m' = incident_id m ∧
    incident_name m' = incident_name m ∧
    started_at (metadata m') = started_at (metadata m) ∧
    severity (metadata m') = severity (metadata m) ∧
    affected_services (metadata m') = affected_services (metadata m) ∧
    investigator (metadata m') = investigator (metadata m).
Proof.
  intros Hw Hk HG.
  destruct (run_grows k cs w m Hw Hk HG) as (m' & Hk' & Hg).
  exists m'. split; [done|]. destruct Hg as (?&?&?&?&?&?&_). by repeat split.
Qed.

Lemma demo_run_guarded :
  guarded (keeps demo_id) [demo_confirm; demo_rule_out; demo_late_event]
    demo_proposed.
Proof. repeat split; intros Hc; discriminate Hc. Qed.

Lemma creation_fields_kept_witness :
  ∃ m m', files demo_proposed !! demo_id = Some m ∧
    files (run [demo_confirm; demo_rule_out; demo_late_event] demo_proposed)
      !! demo_id = Some m' ∧
    incident_id m' = incident_id m ∧
    incident_name m' = incident_name m ∧
    started_at (metadata m') = started_at (metadata m) ∧
    severity (metadata m') = severity (metadata m) ∧
    affected_services (metadata m') = affected_services (metadata m) ∧
    investigator (metadata m') = investigator (metadata m).
Proof.
  destruct (files demo_proposed !! demo_id) as [m|] eqn:Hk;
    [| by vm_compute in Hk].
  destruct (creation_fields_kept demo_proposed demo_id m _
              demo_proposed_reachable Hk demo_run_guarded) as (m' & Hk' & Hkept).
  exists m, m'. split; [done|]. split; [exact Hk' | exact Hkept].
Defined.

(** X5: along every run that does not create a record under the same id
    again, the record only gathers: every timeline event stays in the
    timeline (the order may change, nothing is dropped), the findings and the
    audit log [ruled_out] are extended at the end only, the number of
    hypotheses does not decrease, and a [resolved] status stays [resolved]. *)
Theorem logs_append_only w k m cs :
  reachable w → files w !! k = Some m → guarded (keeps k) cs w →
  ∃ m', files (run cs w) !! k = Some m' ∧
    timeline m ⊆+ timeline m' ∧
    findings m `prefix_of` findings m' ∧
    ruled_out m `prefix_of` ruled_out m' ∧
    (length (hypotheses m) ≤ length (hypotheses m'))%nat ∧
    (status (metadata m) = resolved → status (metadata m') = resolved).
Proof.
  intros Hw Hk HG.
  destruct (run_grows k cs w m Hw Hk HG) as (m' & Hk' & Hg).
  exists m'. split; [done|].
  destruct Hg as (_&_&_&_&_&_&?&?&?&?&?). by repeat split.
Qed.

Lemma logs_append_only_witness :
  ∃ m m', files demo_proposed !! demo_id = Some m ∧
    files (run [demo_confirm; demo_rule_out; demo_late_event] demo_proposed)
      !! demo_id = Some m' ∧
    timeline m ⊆+ timeline m' ∧
    findings m `prefix_of` findings m' ∧
    ruled_out m `prefix_of` ruled_out m' ∧
    (length (hypotheses m) ≤ length (hypotheses m'))%nat ∧
    (status (metadata m) = resolved → status (metadata m') = resolved).
Proof.
  destruct (files demo_proposed !! demo_id) as [m|] eqn:Hk;
    [| by vm_compute in Hk].
  destruct (logs_append_only demo_proposed demo_id m _
              demo_proposed_reachable Hk demo_run_guarded) as (m' & Hk' & Hkept).
  exists m, m'. split; [done|]. split; [exact Hk' | exact Hkept].
Defined.

(** X6: no operation sets the incident status to [escalated]: in every
    reachable record it is [investigating] or [resolved]. *)
Theorem status_never_escalated w k m :
  reachable w → files w !! k = Some m →
  status (metadata m) = investigating ∨ status (metadata m) = resolved.
Proof.
  intros Hw Hk. revert w Hw k m Hk.
  apply (reachable_record_ind
           (λ m, status (metadata m) = investigating
                 ∨ status (metadata m) = resolved)).
  - intros m (Hs & _). by left.
  - intros c m m' Hmut IH.
    destruct (mutation_status _ _ _ Hmut) as [-> | [-> _]]; [done | by right].
Qed.

Lemma status_never_escalated_witness :
  ∃ m, files demo_confirmed !! demo_id = Some m ∧
    (status (metadata m) = investigating ∨ status (metadata m) = resolved).
Proof.
  eexists. split; [vm_compute; reflexivity|].
  apply (status_never_escalated demo_confirmed demo_id).
  - apply reachable_step, demo_proposed_reachable.
  - vm_compute; reflexivity.
Defined.

(** X7: in every reachable record the timeline still holds the entry
    "Investigation started" that [createIncident] wrote, stamped with the
    start time of the incident, and a [resolved] record holds an entry "Root
    cause confirmed" from the user: later insertions and sorts never drop
    them. *)
Theorem timeline_keeps_milestones w k m :
  reachable w → files w !! k = Some m →
  start_logged m ∧ (status (metadata m) = resolved → confirmation_logged m).
Proof.
  intros Hw Hk. revert w Hw k m Hk.
  apply (reachable_grown_ind
           (λ m, start_logged m
                 ∧ (status (metadata m) = resolved → confirmation_logged m))).
  - intros m (Hs & _) Hstart. split; [done|]. congruence.
  - intros c m m' Hmut Hg Hconf [(e & Hin & He & Hsrc & Hts) IH].
    destruct Hg as (_ & _ & Hst & _ & _ & _ & _ & Htl & _).
    split.
    + exists e. split; [by eapply elem_of_submseteq|]. by rewrite Hst.
    + intros Hres.
      destruct (mutation_status _ _ _ Hmut) as [Heq | [_ Hc]]; [| by apply Hconf].
      rewrite Heq in Hres. destruct (IH Hres) as (e' & Hin' & He').
      exists e'. split; [by eapply elem_of_submseteq | done].
Qed.

Lemma timeline_keeps_milestones_witness :
  ∃ m, files demo_confirmed !! demo_id = Some m ∧
    start_logged m ∧ (status (metadata m) = resolved → confirmation_logged m).
Proof.
  eexists. split; [vm_compute; reflexivity|].
  apply (timeline_keeps_milestones demo_confirmed demo_id).
  - apply reachable_step, demo_proposed_reachable.
  - vm_compute; reflexivity.
Defined.

(** X8: in every reachable record, a hypothesis that carries a rule-out
    stamp has an entry in the audit log [ruled_out] with its title and that
    very timestamp, whatever happened to the hypothesis afterwards. *)
Theorem rule_out_stamps_audited w k m :
  reachable w → files w !! k = Some m → stamps_audited m.
Proof.
  intros Hw Hk. revert w Hw k m Hk.
  apply (reachable_record_ind stamps_audited).
  - intros m Hf h t Hin. by destruct (fresh_no_hypothesis m h).
  - intros c m m' Hmut IH h' t [j Hj]%list_elem_of_lookup Hstamp.
    destruct Hmut as [p m tl | p m pa | p m i h0 se ce cf Hfind | p m i h0 now Hfind
                     | p m i h0 t0 tl Hfind | p m fs | p m t0]; simpl in *.
    + eapply IH; [by eapply list_elem_of_lookup_2 | done].
    + apply lookup_app_Some in Hj as [Hj | [_ Hj]].
      * eapply IH; [by eapply list_elem_of_lookup_2 | done].
      * apply list_lookup_singleton_Some in Hj as [_ <-]. discriminate Hstamp.
    + apply find_hypothesis_Some in Hfind as [Hi _].
      apply list_lookup_insert_Some in Hj as [(-> & <- & _) | [_ Hj]].
      * simpl in *. by apply (IH h0); [eapply list_elem_of_lookup_2|].
      * eapply IH; [by eapply list_elem_of_lookup_2 | done].
    + apply find_hypothesis_Some in Hfind as [Hi _].
      apply list_lookup_insert_Some in Hj as [(-> & <- & _) | [_ Hj]].
      * simpl in *. injection Hstamp as <-. eexists.
        split; [apply elem_of_app; right; by apply list_elem_of_singleton|].
        done.
      * destruct (IH h' t) as (r & Hr & ?); [by eapply list_elem_of_lookup_2 | done |].
        exists r. split; [apply elem_of_app; by left | done].
    + apply find_hypothesis_Some in Hfind as [Hi _].
      apply list_lookup_insert_Some in Hj as [(-> & <- & _) | [_ Hj]].
      * simpl in *. by apply (IH h0); [eapply list_elem_of_lookup_2|].
      * eapply IH; [by eapply list_elem_of_lookup_2 | done].
    + eapply IH; [by eapply list_elem_of_lookup_2 | done].
    + eapply IH; [by eapply list_elem_of_lookup_2 | done].
Qed.

Lemma rule_out_stamps_audited_witness :
  ∃ m, files (step demo_confirm demo_ruled_out) !! demo_id = Some m ∧
       stamps_audited m.
Proof.
  eexists. split; [vm_compute; reflexivity|].
  apply (rule_out_stamps_audited (step demo_confirm demo_ruled_out) demo_id).
  - apply reachable_step, reachable_step, demo_proposed_reachable.
  - vm_compute; reflexivity.
Defined.

(** ** One incident at a time *)

(** X9: in a reachable world a call changes no record but the one of the
    incident it names (or the one it creates): the record of every other
    incident is stored after the call exactly as before. Both incidents are
    named by plain ids, so that two ids are two files. *)
Theorem other_incidents_untouched c w k :
  reachable w → names_plain c → plain_id k →
  call_incident c ≠ Some k → keeps k w c →
  files (step c w) !! k = files w !! k.
Proof.
  intros Hw _ _ Hc Hkeep. pose proof (reachable_wf _ Hw) as Hwf.
  destruct (step_files c w) as [-> | [(p & m0 & -> & Hret & _ & ->) |
    (k0 & m & m0 & Hc0 & Hk0 & _ & ->)]]; [done | |].
  - apply lookup_insert_ne. intros <-. apply Hkeep. unfold creates.
    by rewrite Hret.
  - rewrite (Hwf _ _ Hk0). apply lookup_insert_ne. congruence.
Qed.

Lemma pair_world_reachable : reachable pair_world.
Proof. apply reachable_run. by constructor. Qed.

(** Two incidents are open; the root cause of the first is confirmed, which
    rewrites the record of the first and leaves the record of the second. *)
Lemma other_incidents_untouched_witness :
  ∃ m1 m1' m2,
    files pair_world !! pair_first = Some m1 ∧
    files pair_world !! pair_second = Some m2 ∧
    files (step pair_confirm pair_world) !! pair_first = Some m1' ∧
    status (metadata m1) = investigating ∧ status (metadata m1') = resolved ∧
    files (step pair_confirm pair_world) !! pair_second = Some m2.
Proof.
  assert (Hpair : ∃ m1 m1' m2,
    files pair_world !! pair_first = Some m1 ∧
    files pair_world !! pair_second = Some m2 ∧
    files (step pair_confirm pair_world) !! pair_first = Some m1' ∧
    status (metadata m1) = investigating ∧ status (metadata m1') = resolved).
  { eexists _, _, _.
    split; [vm_compute; reflexivity|]. split; [vm_compute; reflexivity|].
    split; [vm_compute; reflexivity|]. split; vm_compute; reflexivity. }
  destruct Hpair as (m1 & m1' & m2 & H1 & H2 & H1' & Hs & Hs').
  exists m1, m1', m2. repeat (split; [assumption|]).
  rewrite <- H2.
  apply (other_incidents_untouched pair_confirm pair_world pair_second).
  - exact pair_world_reachable.
  - intros id [= <-]. reflexivity.
  - reflexivity.
  - discriminate.
  - discriminate.
Defined.

(** X10: no operation deletes a record: an id that has a record in a
    reachable world has one after every call; and an id gets its first
    record from [createIncident] only. *)
Theorem records_never_deleted c w k :
  reachable w →
  (is_Some (files w !! k) → is_Some (files (step c w) !! k))
  ∧ (files w !! k = None → is_Some (files (step c w) !! k) →
       creates c w = Some k).
Proof.
  intros Hw. pose proof (reachable_wf _ Hw) as Hwf.
  destruct (step_files c w) as [-> | [(p & m0 & -> & Hret & _ & ->) |
    (k0 & m & m0 & Hc0 & Hk0 & _ & ->)]].
  - split; [done|]. intros -> [? ?]. done.
  - split.
    + intros Hsome. rewrite lookup_insert. by case_decide.
    + intros Hnone. rewrite lookup_insert. case_decide.
      * intros _. unfold creates. rewrite Hret. by subst.
      * rewrite Hnone. by intros [? ?].
  - rewrite (Hwf _ _ Hk0). split.
    + intros Hsome. rewrite lookup_insert. by case_decide.
    + intros Hnone. rewrite lookup_insert. case_decide; [congruence|].
      rewrite Hnone. by intros [? ?].
Qed.

Lemma records_never_deleted_witness :
  (is_Some (files demo_proposed !! demo_id) →
   is_Some (files (step demo_rule_out demo_proposed) !! demo_id))
  ∧ (files demo_proposed !! demo_id = None →
     is_Some (files (step demo_rule_out demo_proposed) !! demo_id) →
     creates demo_rule_out demo_proposed = Some demo_id).
Proof.
  exact (records_never_deleted demo_rule_out demo_proposed demo_id
           demo_proposed_reachable).
Defined.

(** ** The effect of confirmRootCause and of updateHypothesis *)

(** X11: on a stored record with a hypothesis of the given id,
    [confirmRootCause] sets the status of the first such hypothesis to
    [confirmed_root_cause] and nothing else of it, sets the incident status
    to [resolved], rewrites the summary to "Root cause confirmed: <title>"
    stamped with the first clock reading, and appends to the end of the
    timeline, without sorting, the entry "Root cause confirmed" stamped with
    the second reading; the other hypotheses, the findings, the audit log
    and the creation fields are those of the stored record. *)
Theorem confirmRootCause_effect w p m h0 :
  files w !! cr_incident_id p = Some m →
  h0 ∈ hypotheses m → hyp_id h0 = cr_hypothesis_id p →
  ∃ m' w' i h,
    confirmRootCause p w = (Returned m', w') ∧
    files w' = <[incident_id m := m']> (files w) ∧
    ticks w' = S (S (ticks w)) ∧
    find_hypothesis (cr_hypothesis_id p) (hypotheses m) = Some (i, h) ∧
    hypotheses m' = <[i := set_hyp_status confirmed_root_cause h]> (hypotheses m) ∧
    metadata m' = set_status resolved (metadata m) ∧
    tldr m' =
      {| summary := "Root cause confirmed: " +:+ hyp_title h;
         last_updated := toISOString_now (host w) (ticks w) |} ∧
    timeline m' =
      (timeline m ++
         [ {| ev_timestamp := toISOString_now (host w) (S (ticks w));
              ev_event := "Root cause confirmed";
              ev_source := src_user;
              ev_details := hyp_title h |} ])%list ∧
    findings m' = findings m ∧ ruled_out m' = ruled_out m ∧
    incident_id m' = incident_id m ∧ incident_name m' = incident_name m.
Proof.
  intros Hk Hin Hid.
  destruct (find_hypothesis_elem _ _ _ Hin Hid) as (i & h & Hfind).
  unfold confirmRootCause; unfold_monad; simpl. rewrite Hk, Hfind. simpl.
  eexists _, _, i, h. split; [reflexivity|]. by repeat split.
Qed.

Lemma confirmRootCause_effect_witness :
  ∃ m h0 m' w',
    files demo_proposed !! demo_id = Some m ∧
    h0 ∈ hypotheses m ∧ hyp_id h0 = "hyp_1" ∧
    confirmRootCause
      {| cr_incident_id := demo_id; cr_hypothesis_id := "hyp_1" |} demo_proposed
    = (Returned m', w') ∧
    metadata m' = set_status resolved (metadata m) ∧
    findings m' = findings m ∧ ruled_out m' = ruled_out m.
Proof.
  assert (Hm : ∃ m h, files demo_proposed !! demo_id = Some m ∧
                      hypotheses m = [h] ∧ hyp_id h = "hyp_1").
  { eexists _, _. split; [vm_compute; reflexivity|]. split; reflexivity. }
  destruct Hm as (m & h & Hk & Hh & Hid).
  assert (Hin : h ∈ hypotheses m) by (rewrite Hh; apply list_elem_of_singleton; done).
  destruct (confirmRootCause_effect demo_proposed
              {| cr_incident_id := demo_id; cr_hypothesis_id := "hyp_1" |}
              m h Hk Hin Hid)
    as (m' & w' & i & h1 & Hret & _ & _ & _ & _ & Hmd & _ & _ & Hf & Hr & _).
  exists m, h, m', w'. repeat (split; [assumption|]). assumption.
Defined.

(** X12: on a stored record with a hypothesis of the given id,
    [updateHypothesis] appends the given evidence at the end of the two
    evidence lists of the first such hypothesis, without removing duplicates,
    and overwrites its confidence when one is given; the id, title, proposer,
    proposal time, status and rule-out stamp of that hypothesis, every other
    hypothesis and every other field of the record stay, and the clock is not
    read. *)
Theorem updateHypothesis_effect w p m h0 :
  files w !! uh_incident_id p = Some m →
  h0 ∈ hypotheses m → hyp_id h0 = uh_hypothesis_id p →
  ∃ m' w' i h,
    updateHypothesis p w = (Returned m', w') ∧
    files w' = <[incident_id m := m']> (files w) ∧
    ticks w' = ticks w ∧
    find_hypothesis (uh_hypothesis_id p) (hypotheses m) = Some (i, h) ∧
    hypotheses m' =
      <[i := mkHypothesis (hyp_id h) (hyp_title h) (hyp_proposed_at h)
               (hyp_proposed_by h) (hyp_status h)
               (default (hyp_confidence h) (uh_new_confidence p))
               (hyp_supporting_evidence h
                  ++ default [] (uh_add_supporting_evidence p))
               (hyp_counter_evidence h
                  ++ default [] (uh_add_counter_evidence p))
               (hyp_ruled_out_at h)]> (hypotheses m) ∧
    m' = set_hypotheses (hypotheses m') m.
Proof.
  intros Hk Hin Hid.
  destruct (find_hypothesis_elem _ _ _ Hin Hid) as (i & h & Hfind).
  unfold updateHypothesis; unfold_monad; simpl. rewrite Hk, Hfind. simpl.
  eexists _, _, i, h. split; [reflexivity|]. simpl.
  repeat split; try done.
  destruct p as [? ? [se|] [ce|] [cf|]], h; simpl;
    by rewrite ?app_nil_r.
Qed.

Lemma updateHypothesis_effect_witness :
  ∃ m h0 m' w',
    files demo_proposed !! demo_id = Some m ∧
    h0 ∈ hypotheses m ∧ hyp_id h0 = "hyp_1" ∧
    updateHypothesis
      {| uh_incident_id := demo_id;
         uh_hypothesis_id := "hyp_1";
         uh_add_supporting_evidence := Some ["connection timeouts"];
         uh_add_counter_evidence := None;
         uh_new_confidence := Some conf_high |} demo_proposed
    = (Returned m', w') ∧
    (hyp_supporting_evidence <$> hypotheses m')
    = [["connection timeouts"; "connection timeouts"]] ∧
    (hyp_confidence <$> hypotheses m') = [conf_high].
Proof.
  assert (Hm : ∃ m h, files demo_proposed !! demo_id = Some m ∧
                      hypotheses m = [h] ∧ hyp_id h = "hyp_1"
                      ∧ hyp_supporting_evidence h = ["connection timeouts"]).
  { eexists _, _. split; [vm_compute; reflexivity|]. repeat split; reflexivity. }
  destruct Hm as (m & h & Hk & Hh & Hid & Hev).
  assert (Hin : h ∈ hypotheses m) by (rewrite Hh; apply list_elem_of_singleton; done).
  destruct (updateHypothesis_effect demo_proposed
              {| uh_incident_id := demo_id;
                 uh_hypothesis_id := "hyp_1";
                 uh_add_supporting_evidence := Some ["connection timeouts"];
                 uh_add_counter_evidence := None;
                 uh_new_confidence := Some conf_high |}
              m h Hk Hin Hid)
    as (m' & w' & i & h1 & Hret & _ & _ & Hfind & Hhyps & _).
  exists m, h, m', w'. repeat (split; [assumption|]).
  rewrite Hh in Hfind, Hhyps. unfold find_hypothesis in Hfind. simpl in Hfind.
  rewrite decide_True in Hfind by done. injection Hfind as <- <-.
  rewrite Hhyps. simpl. by rewrite Hev.
Defined.

(** ** addTimelineEvent *)

(** X13: when the stored timestamps and the timestamp of the new event
    (the one supplied or, without one, the current time) all have the shape
    that [toISOString] writes, then, whatever the order of the stored
    timeline, the timeline that [addTimelineEvent] returns and stores is in
    ascending lexical order of the timestamps and holds exactly the former
    events and the new one: a timeline that [confirmRootCause] left out of
    order is in order again after the next [addTimelineEvent]. *)
Theorem addTimelineEvent_sorts w p m :
  files w !! te_incident_id p = Some m →
  Forall (λ x, iso_shaped (ev_timestamp x)) (timeline m) →
  iso_shaped (default (toISOString_now (host w) (ticks w)) (te_timestamp p)) →
  ∃ m' w' e,
    addTimelineEvent p w = (Returned m', w') ∧
    files w' = <[incident_id m := m']> (files w) ∧
    timeline_sorted (timeline m') ∧
    timeline m' ≡ₚ timeline m ++ [e] ∧
    ev_event e = te_event p ∧ ev_source e = te_source p ∧
    ev_details e = te_details p ∧
    ev_timestamp e =
      default (toISOString_now (host w) (ticks w)) (te_timestamp p).
Proof. intros Hk _ _. by apply addTimelineEvent_sorted. Qed.

(** The late event is added to the record that [confirmRootCause] left out
    of order. *)
Lemma addTimelineEvent_sorts_witness :
  ∃ m m' w' e,
    files (step demo_confirm (run demo_late_run demo_world)) !! demo_id = Some m ∧
    addTimelineEvent
      {| te_incident_id := demo_id;
         te_event := "Rollback finished";
         te_source := src_user;
         te_details := "previous release restored";
         te_timestamp := Some "2026-02-02T08:00:00.000Z" |}
      (step demo_confirm (run demo_late_run demo_world))
    = (Returned m', w') ∧
    ¬ timeline_sorted (timeline m) ∧
    Forall (λ x, iso_shaped (ev_timestamp x)) (timeline m) ∧
    timeline_sorted (timeline m') ∧ timeline m' ≡ₚ timeline m ++ [e].
Proof.
  assert (Hm : ∃ m,
    files (step demo_confirm (run demo_late_run demo_world)) !! demo_id = Some m ∧
    (ev_timestamp <$> timeline m)
    = ["2026-02-02T07:00:00.000Z"; "2026-02-02T09:00:00.000Z";
       "2026-02-02T07:05:00.000Z"]).
  { eexists. split; [vm_compute; reflexivity | reflexivity]. }
  destruct Hm as (m & Hk & Hts).
  assert (Hunsorted : ¬ timeline_sorted (timeline m)).
  { intros Hsorted. destruct (timeline m) as [| e1 [| e2 [| e3 [| ? ?]]]];
      try discriminate Hts. injection Hts as H1 H2 H3.
    apply StronglySorted_inv in Hsorted as [Hsorted _].
    apply StronglySorted_inv in Hsorted as [_ Hle].
    apply Forall_inv in Hle. unfold timestamp_le, lexical_le in Hle.
    rewrite H2, H3 in Hle. by apply Hle. }
  assert (Hshape : Forall (λ x, iso_shaped (ev_timestamp x)) (timeline m)).
  { apply Forall_fmap with (f := ev_timestamp) (P := iso_shaped). rewrite Hts.
    repeat (constructor; [reflexivity|]). constructor. }
  destruct (addTimelineEvent_sorts
              (step demo_confirm (run demo_late_run demo_world))
              {| te_incident_id := demo_id;
                 te_event := "Rollback finished";
                 te_source := src_user;
                 te_details := "previous release restored";
                 te_timestamp := Some "2026-02-02T08:00:00.000Z" |} m Hk Hshape
              eq_refl)
    as (m' & w' & e & Hret & _ & Hsorted & Hperm & _).
  exists m, m', w', e. repeat (split; [assumption|]). assumption.
Defined.

Lemma not_after_le e x : not_after e x ↔ timestamp_le x e.
Proof.
  unfold not_after, by_timestamp, localeCompare, timestamp_le, lexical_le.
  destruct (String.compare _ _); split; intros H; try done; try lia.
Qed.

Lemma sort_insert_first x y l :
  not_after y x → sort_insert by_timestamp x (y :: l) = x :: y :: l.
Proof.
  unfold not_after. intros H. simpl.
  by destruct (Z.leb_spec (by_timestamp x y) 0); [| lia].
Qed.

Lemma sort_insert_later x y l :
  ¬ not_after y x →
  sort_insert by_timestamp x (y :: l) = y :: sort_insert by_timestamp x l.
Proof.
  unfold not_after. intros H. simpl.
  by destruct (Z.leb_spec (by_timestamp x y) 0); [lia|].
Qed.

Lemma sort_insert_least x l :
  Forall (timestamp_le x) l → sort_insert by_timestamp x l = x :: l.
Proof.
  destruct 1 as [| y l Hy _]; [done|].
  apply sort_insert_first. by apply not_after_le.
Qed.

Lemma filter_all {A} (P : A → Prop) `{!∀ x, Decision (P x)} l :
  Forall P l → filter P l = l.
Proof.
  induction 1 as [| x l Hx _ IH]; [done|]. by rewrite filter_cons_True, IH.
Qed.

Lemma filter_none {A} (P : A → Prop) `{!∀ x, Decision (P x)} l :
  Forall (λ x, ¬ P x) l → filter P l = [].
Proof.
  induction 1 as [| x l Hx _ IH]; [done|]. by rewrite filter_cons_False.
Qed.

(** Sorting a sorted timeline with one event pushed at its end puts the
    event behind the events that are not after it and before the others, and
    keeps the order of both groups. *)
Lemma sort_snoc_sorted tl e :
  timeline_sorted tl →
  sort by_timestamp (tl ++ [e])
  = (filter (not_after e) tl ++ e :: filter (λ x, ¬ not_after e x) tl)%list.
Proof.
  unfold sort. rewrite foldr_app. simpl.
  induction 1 as [| x tl Hsorted IH Hx]; [done|].
  simpl. rewrite IH. rewrite !filter_cons.
  destruct (decide (not_after e x)) as [Hle | Hgt].
  - rewrite decide_False by tauto.
    destruct (filter (not_after e) tl) as [| y l] eqn:Hfilter; cbn [app].
    + by apply sort_insert_first.
    + apply sort_insert_first. apply not_after_le.
      rewrite Forall_forall in Hx. apply Hx.
      assert (Hy : y ∈ filter (not_after e) tl) by (rewrite Hfilter; left).
      by apply list_elem_of_filter in Hy as [_ ?].
  - rewrite decide_True by done.
    assert (Hall : Forall (λ y, ¬ not_after e y) tl).
    { eapply Forall_impl; [exact Hx|]. intros y Hxy Hye. apply Hgt.
      apply not_after_le. apply not_after_le in Hye.
      unfold timestamp_le in *. by eapply lexical_le_trans. }
    assert (Hnone : filter (not_after e) tl = []) by (by apply filter_none).
    assert (Hsome : filter (λ y, ¬ not_after e y) tl = tl)
      by (by apply filter_all).
    rewrite Hnone, Hsome. cbn [app].
    rewrite sort_insert_later by done.
    by rewrite sort_insert_least.
Qed.

(** X14: when the stored timeline is in ascending order and its timestamps
    and the one of the new event all have the shape that [toISOString]
    writes, [addTimelineEvent] places the new event behind every event whose
    timestamp is not later than its own (behind those with an equal
    timestamp too) and before the others, and the events that were there
    keep their order; in particular an event that is not earlier than any
    other goes to the end. *)
Theorem addTimelineEvent_position w p m :
  files w !! te_incident_id p = Some m → timeline_sorted (timeline m) →
  Forall (λ x, iso_shaped (ev_timestamp x)) (timeline m) →
  iso_shaped (default (toISOString_now (host w) (ticks w)) (te_timestamp p)) →
  ∃ m' w' e,
    addTimelineEvent p w = (Returned m', w') ∧
    e = {| ev_timestamp :=
             default (toISOString_now (host w) (ticks w)) (te_timestamp p);
           ev_event := te_event p;
           ev_source := te_source p;
           ev_details := te_details p |} ∧
    timeline m' =
      (filter (not_after e) (timeline m)
         ++ e :: filter (λ x, ¬ not_after e x) (timeline m))%list ∧
    (Forall (not_after e) (timeline m) → timeline m' = (timeline m ++ [e])%list).
Proof.
  intros Hk Hsorted _ _. unfold addTimelineEvent; unfold_monad. rewrite Hk. simpl.
  destruct (te_timestamp p) as [t|]; simpl;
    (eexists _, _, _; split; [reflexivity|]; split; [reflexivity|]; simpl;
     split; [by apply sort_snoc_sorted|];
     intros Hall; change (λ a b, localeCompare (ev_timestamp a) (ev_timestamp b))
       with by_timestamp; rewrite sort_snoc_sorted by done;
     rewrite (filter_all (not_after _)) by done;
     rewrite (filter_none (λ x, ¬ not_after _ x)); [done|];
     eapply Forall_impl; [exact Hall|]; auto).
Qed.

Lemma addTimelineEvent_position_witness :
  ∃ m m' w',
    files demo_proposed !! demo_id = Some m ∧ timeline_sorted (timeline m) ∧
    addTimelineEvent
      {| te_incident_id := demo_id;
         te_event := "Error spike detected";
         te_source := src_logs;
         te_details := "500s on checkout-api";
         te_timestamp := Some "2026-02-02T06:55:00.000Z" |} demo_proposed
    = (Returned m', w') ∧
    (ev_event <$> timeline m') = ["Error spike detected"; "Investigation started"].
Proof.
  assert (Hm : ∃ m, files demo_proposed !! demo_id = Some m ∧
                    timeline_sorted (timeline m) ∧
                    (ev_timestamp <$> timeline m) = ["2026-02-02T07:00:00.000Z"] ∧
                    (ev_event <$> timeline m) = ["Investigation started"]).
  { eexists. split; [vm_compute; reflexivity|].
    split; [repeat constructor | split; reflexivity]. }
  destruct Hm as (m & Hk & Hsorted & Hts & Hev).
  assert (Hshape : Forall (λ x, iso_shaped (ev_timestamp x)) (timeline m)).
  { apply Forall_fmap with (f := ev_timestamp) (P := iso_shaped). rewrite Hts.
    repeat (constructor; [reflexivity|]). constructor. }
  destruct (addTimelineEvent_position demo_proposed
              {| te_incident_id := demo_id;
                 te_event := "Error spike detected";
                 te_source := src_logs;
                 te_details := "500s on checkout-api";
                 te_timestamp := Some "2026-02-02T06:55:00.000Z" |} m Hk Hsorted
              Hshape eq_refl)
    as (m' & w' & e & Hret & -> & Htl & _).
  exists m, m', w'. repeat (split; [assumption|]).
  rewrite Htl. destruct (timeline m) as [| e0 [| ? ?]]; try discriminate Hts.
  injection Hts as Hts. injection Hev as Hev.
  rewrite !filter_cons, !filter_nil.
  rewrite decide_False.
  - rewrite decide_True; [by simpl; rewrite Hev|].
    unfold not_after, by_timestamp. simpl. rewrite Hts. by vm_compute.
  - unfold not_after, by_timestamp. simpl. rewrite Hts. by vm_compute.
Defined.

(** ** The storage layer *)

Lemma endsWith_json k : endsWith ".json" (k +:+ ".json") = true.
Proof.
  induction k as [| c k IH]; [reflexivity|].
  change (endsWith ".json" (String c k +:+ ".json"))
    with (if String.eqb (String c (k +:+ ".json")) ".json" then true
          else endsWith ".json" (k +:+ ".json")).
  rewrite IH. by destruct (String.eqb _ _).
Qed.

Lemma replace_json k : id_chars k = true → replace ".json" "" (k +:+ ".json") = k.
Proof.
  induction k as [| c k IH]; [reflexivity|].
  intros [Hc Hk]%andb_true_iff.
  change (replace ".json" "" (String c k +:+ ".json"))
    with (if String.prefix ".json" (String c (k +:+ ".json"))
          then "" +:+ String.substring (String.length ".json")
                        (String.length (String c (k +:+ ".json"))
                         - String.length ".json")
                        (String c (k +:+ ".json"))
          else String c (replace ".json" "" (k +:+ ".json"))).
  assert (Hdot : String.prefix ".json" (String c (k +:+ ".json")) = false).
  { change (String.prefix ".json" (String c (k +:+ ".json")))
      with (if Ascii.ascii_dec "." c then String.prefix "json" (k +:+ ".json")
            else false).
    destruct (Ascii.ascii_dec "." c) as [<- | _]; [discriminate Hc | done]. }
  rewrite Hdot. by rewrite IH.
Qed.

Lemma listed_plain (ks : list string) :
  Forall plain_id ks →
  replace ".json" "" <$> List.filter (endsWith ".json") ((λ k, k +:+ ".json") <$> ks)
  = ks.
Proof.
  induction 1 as [| k ks [Hk _]%andb_true_iff _ IH]; [reflexivity|].
  rewrite fmap_cons. cbn [List.filter]. rewrite endsWith_json, fmap_cons.
  by rewrite replace_json, IH.
Qed.

Lemma plain_files_keys w :
  plain_files w ↔ Forall plain_id (fst <$> map_to_list (files w)).
Proof.
  rewrite Forall_forall. unfold plain_files. split.
  - intros Hplain k ([k' x] & -> & Hin%elem_of_map_to_list)%list_elem_of_fmap.
    apply Hplain. by eexists.
  - intros Hplain k [x Hx]. apply Hplain, list_elem_of_fmap.
    exists (k, x). split; [done|]. by apply elem_of_map_to_list.
Qed.

Lemma listIncidents_plain w :
  plain_files w → listIncidents w = (Returned (fst <$> map_to_list (files w)), w).
Proof.
  intros Hplain%plain_files_keys. unfold listIncidents, readdir; unfold_monad.
  by rewrite listed_plain.
Qed.

(** The [replace] of [listIncidents] removes the first [.json] of a file
    name, which is the extension only when the id holds none: the record
    saved under [a.json.b] is listed as [a.b.json]. *)
Lemma listIncidents_first_json m w :
  files w = ∅ → incident_id m = "a.json.b" →
  (listIncidents (saveMemory m w).2).1 = Returned ["a.b.json"].
Proof.
  intros Hempty Hid. unfold listIncidents, readdir, saveMemory; unfold_monad.
  simpl. rewrite Hempty, Hid, insert_empty, map_to_list_singleton. reflexivity.
Qed.

(** X15: what [saveMemory] stores is what the reads find, in a directory
    whose records are stored under plain ids and for a record with a plain
    id: after it, [loadMemory] under the id of the record yields the record,
    [memoryExists] is true for it and [listIncidents] lists it; under every
    other plain id [loadMemory] and [memoryExists] answer as before; and
    [listIncidents] lists plain ids only, each once, a plain id exactly when
    [memoryExists] holds for it. *)
Theorem saveMemory_then_read m w :
  plain_id (incident_id m) → plain_files w →
  let w' := (saveMemory m w).2 in
  loadMemory (incident_id m) w' = (Returned (Some m), w')
  ∧ memoryExists (incident_id m) w' = (Returned true, w')
  ∧ (∀ id, plain_id id → id ≠ incident_id m →
       loadMemory id w' = (Returned (files w !! id), w')
       ∧ (memoryExists id w').1 = (memoryExists id w).1)
  ∧ (∃ ids, listIncidents w' = (Returned ids, w') ∧ NoDup ids ∧
       Forall plain_id ids ∧ incident_id m ∈ ids ∧
       ∀ id, plain_id id →
         (id ∈ ids ↔ (memoryExists id w').1 = Returned true)).
Proof.
  intros Hm Hw w'.
  assert (Hw' : plain_files w').
  { intros k [x Hx]. unfold w', saveMemory in Hx. simpl in Hx.
    apply lookup_insert_Some in Hx as [[<- _] | [_ Hx]]; [done|].
    apply Hw. by eexists. }
  assert (Hin : ∀ id, id ∈ fst <$> map_to_list (files w')
                      ↔ (memoryExists id w').1 = Returned true).
  { intros id. unfold memoryExists. simpl. rewrite list_elem_of_fmap. split.
    - intros ([k x] & -> & Hin%elem_of_map_to_list). simpl.
      f_equal. apply bool_decide_eq_true. by eexists.
    - intros [= [x Hx]%bool_decide_eq_true].
      exists (id, x). split; [done|]. by apply elem_of_map_to_list. }
  split; [| split; [| split]].
  - unfold w', saveMemory, loadMemory. simpl. by rewrite lookup_insert_eq.
  - unfold w', saveMemory, memoryExists. simpl. by rewrite lookup_insert_eq.
  - intros id _ Hne. unfold w', saveMemory, loadMemory, memoryExists. simpl.
    by rewrite lookup_insert_ne.
  - exists (fst <$> map_to_list (files w')).
    split; [by apply listIncidents_plain|].
    split; [apply NoDup_fst_map_to_list|].
    split; [by apply plain_files_keys|].
    split; [| by intros id _].
    apply Hin. unfold w', saveMemory, memoryExists. simpl.
    by rewrite lookup_insert_eq.
Qed.

(** The record of the scenario is saved into the directory of the two
    incidents: the listing holds three ids, and the two other records are
    found as before. *)
Lemma saveMemory_then_read_witness :
  ∃ m ids,
    files demo_proposed !! demo_id = Some m ∧
    plain_id (incident_id m) ∧ plain_files pair_world ∧
    loadMemory demo_id (saveMemory m pair_world).2
    = (Returned (Some m), (saveMemory m pair_world).2) ∧
    loadMemory pair_second (saveMemory m pair_world).2
    = (Returned (files pair_world !! pair_second), (saveMemory m pair_world).2) ∧
    is_Some (files pair_world !! pair_second) ∧
    listIncidents (saveMemory m pair_world).2
    = (Returned ids, (saveMemory m pair_world).2) ∧
    length ids = 3%nat ∧ demo_id ∈ ids.
Proof.
  assert (Hm : ∃ m, files demo_proposed !! demo_id = Some m
                    ∧ incident_id m = demo_id).
  { eexists. split; [vm_compute; reflexivity | reflexivity]. }
  destruct Hm as (m & Hk & Hid).
  assert (Hplain : plain_files pair_world).
  { apply plain_files_keys. vm_compute.
    repeat (constructor; [reflexivity|]). constructor. }
  assert (Hm_plain : plain_id (incident_id m)) by (rewrite Hid; reflexivity).
  assert (Hsecond : is_Some (files pair_world !! pair_second)).
  { eexists. vm_compute. reflexivity. }
  destruct (saveMemory_then_read m pair_world Hm_plain Hplain)
    as (Hload & _ & Hother & ids & Hlist & Hnodup & _ & Hin & Hiff).
  rewrite Hid in Hload, Hin.
  exists m, ids. repeat (split; [assumption|]).
  split; [refine (proj1 (Hother pair_second eq_refl _)); rewrite Hid; discriminate|].
  split; [assumption|]. split; [assumption|]. split; [| assumption].
  assert (Hplain' : plain_files (saveMemory m pair_world).2).
  { intros k [x Hx]. simpl in Hx.
    apply lookup_insert_Some in Hx as [[<- _] | [_ Hx]]; [done|].
    apply Hplain. by eexists. }
  rewrite (listIncidents_plain _ Hplain') in Hlist. injection Hlist as <-.
  simpl. rewrite Hid. vm_compute. reflexivity.
Defined.

(** ** Failed operations *)

Lemma perform_throws_not_found c w message w' :
  perform c w = (Thrown message, w') →
  w' = w
  ∧ ((∃ id, call_incident c = Some id ∧ files w !! id = None ∧
        message = not_found "Incident" id)
     ∨ (∃ id, call_hypothesis c = Some id ∧
          message = not_found "Hypothesis" id)).
Proof.
  destruct c; unfold perform; unfold_ops; simpl; try done;
    case_load; intros [= <- <-]; (split; [done|]); eauto 6.
Qed.

(** X3: an operation on a plain incident id throws only because the
    incident or the hypothesis it names is missing: either the id has no
    record and the message is "Incident <id> not found", or the record is
    there, has no hypothesis of the named id, and the message is "Hypothesis
    <id> not found". An operation that throws has changed nothing: no file
    is written and the clock is not read. The call that throws is neither
    [createIncident] nor [getIncident]: these two never throw. *)
Theorem perform_thrown c w message w' :
  names_plain c →
  perform c w = (Thrown message, w') →
  w' = w
  ∧ (∀ p, c ≠ CreateIncident p) ∧ (∀ id, c ≠ GetIncident id)
  ∧ ((∃ k, call_incident c = Some k ∧ files w !! k = None ∧
        message = not_found "Incident" k)
     ∨ (∃ k m id, call_incident c = Some k ∧ files w !! k = Some m ∧
          call_hypothesis c = Some id ∧
          (∀ h, h ∈ hypotheses m → hyp_id h ≠ id) ∧
          message = not_found "Hypothesis" id)).
Proof.
  intros _.
  assert (Habsent : ∀ id (hs : list HypothesisRec),
            find_hypothesis id hs = None → ∀ h, h ∈ hs → hyp_id h ≠ id).
  { intros id hs Hnone h Hin. unfold find_hypothesis in Hnone.
    rewrite list_find_None, Forall_forall in Hnone. by apply Hnone. }
  destruct c; unfold perform; unfold_ops; simpl; try done;
    case_load; intros [= <- <-]; (split; [done|]);
    (split; [done|]); (split; [done|]); eauto 10.
Qed.

Lemma perform_thrown_witness :
  names_plain
    (ConfirmRootCause {| cr_incident_id := demo_id; cr_hypothesis_id := "hyp_2" |})
  ∧ perform
      (ConfirmRootCause {| cr_incident_id := demo_id; cr_hypothesis_id := "hyp_2" |})
      demo_proposed
    = (Thrown "Hypothesis hyp_2 not found", demo_proposed)
  ∧ ∃ k m id,
      call_incident
        (ConfirmRootCause
           {| cr_incident_id := demo_id; cr_hypothesis_id := "hyp_2" |})
      = Some k ∧ files demo_proposed !! k = Some m ∧
      call_hypothesis
        (ConfirmRootCause
           {| cr_incident_id := demo_id; cr_hypothesis_id := "hyp_2" |})
      = Some id ∧
      (∀ h, h ∈ hypotheses m → hyp_id h ≠ id) ∧
      "Hypothesis hyp_2 not found" = not_found "Hypothesis" id.
Proof.
  assert (Hplain : names_plain
            (ConfirmRootCause
               {| cr_incident_id := demo_id; cr_hypothesis_id := "hyp_2" |})).
  { intros id [= <-]. reflexivity. }
  assert (Hthrown : perform
            (ConfirmRootCause
               {| cr_incident_id := demo_id; cr_hypothesis_id := "hyp_2" |})
            demo_proposed
          = (Thrown "Hypothesis hyp_2 not found", demo_proposed)).
  { vm_compute. reflexivity. }
  split; [exact Hplain|]. split; [exact Hthrown|].
  destruct (perform_thrown _ _ _ _ Hplain Hthrown)
    as (_ & _ & _ & [(k & Hc & Hnone & _) | Hhyp]); [| exact Hhyp].
  injection Hc as <-. by vm_compute in Hnone.
Defined.

(** ** The memory tools *)

Lemma memoryToolNames_elem name :
  name ∈ memoryToolNames ↔ name ∈ tool_name <$> memoryTools.
Proof. unfold memoryToolNames. by rewrite elem_of_list_to_set. Qed.

(** What [executeMemoryTool] runs: the throw of its default case, the
    listing of the ids, or one call of the state machine under the name of
    its tool. *)
Lemma executeMemoryTool_runs toolName toolInput c :
  executeMemoryTool toolName toolInput = Some c →
  ((toolName ∉ memoryToolNames)
   ∧ c = throw ("Unknown memory tool: " +:+ toolName))
  ∨ (toolName = "list_incidents" ∧ c = ResIds <$> listIncidents)
  ∨ (∃ call, tool_of call = toolName ∧ c = perform call).
Proof.
  unfold executeMemoryTool.
  repeat case_decide; subst; intros Hc; simplify_option_eq;
    first
      [ right; left; split; reflexivity
      | right; right;
        first
          [ eexists (CreateIncident _); split; reflexivity
          | eexists (GetIncident _); split; reflexivity
          | eexists (AddTimelineEvent _); split; reflexivity
          | eexists (ProposeHypothesis _); split; reflexivity
          | eexists (UpdateHypothesis _); split; reflexivity
          | eexists (RuleOutHypothesis _); split; reflexivity
          | eexists (ConfirmRootCause _); split; reflexivity
          | eexists (AddFinding _); split; reflexivity
          | eexists (UpdateTLDR _); split; reflexivity
          | eexists (GetHypotheses _); split; reflexivity
          | eexists (GetTimeline _); split; reflexivity ]
      | left; split; [| reflexivity];
        rewrite memoryToolNames_elem; simpl; rewrite !not_elem_of_cons;
        repeat split; try done; apply not_elem_of_nil ].
Qed.

Lemma listIncidents_returns w : ∃ ids, (ResIds <$> listIncidents) w = (Returned ids, w).
Proof. by eexists. Qed.



(** ** The MCP route *)

Lemma executeMcpTool_world toolName toolArgs w :
  (executeMcpTool toolName toolArgs w).2 = w.
Proof.
  unfold executeMcpTool.
  destruct (callTool _ _ _) as [[[parts|]] | e]; simpl; [| done..].
  by repeat case_match.
Qed.

Lemma executeMcpTool_no_error_object toolName toolArgs w message :
  (executeMcpTool toolName toolArgs w).1 ≠ Returned (ResError message).
Proof.
  unfold executeMcpTool.
  destruct (callTool _ _ _) as [[[parts|]] | e]; simpl; [| done..].
  by repeat case_match.
Qed.

(** X18: [executeMcpTool] never touches the store; it throws exactly when
    the server call throws, with the same message; a reply whose joined text
    parts [JSON.parse] rejects comes back as that text, also when it starts
    like JSON; and a reply without a content array comes back whole. *)
Theorem executeMcpTool_outcome toolName toolArgs w :
  (executeMcpTool toolName toolArgs w).2 = w
  ∧ (∀ message,
       (executeMcpTool toolName toolArgs w).1 = Thrown message
       ↔ callTool (host w) toolName toolArgs = Thrown message)
  ∧ (∀ parts,
       callTool (host w) toolName toolArgs = Returned (mkMcpReply (Some parts)) →
       json_parses (host w) (String.concat newline (text_parts parts)) = false →
       (executeMcpTool toolName toolArgs w).1
       = Returned (ResText (String.concat newline (text_parts parts))))
  ∧ (callTool (host w) toolName toolArgs = Returned (mkMcpReply None) →
     (executeMcpTool toolName toolArgs w).1
     = Returned (ResReply (mkMcpReply None))).
Proof.
  split; [apply executeMcpTool_world|]. unfold executeMcpTool.
  split; [| split].
  - intros message.
    destruct (callTool _ _ _) as [[[parts|]] | e]; simpl;
      repeat case_match; naive_solver.
  - intros parts -> Hparse. simpl. rewrite Hparse. by repeat case_match.
  - by intros ->.
Qed.

Lemma executeMcpTool_outcome_witness :
  (executeMcpTool "restart_server" ∅ demo_world).1 = Returned (ResText "pong").
Proof.
  exact (proj1 (proj2 (proj2 (executeMcpTool_outcome "restart_server" ∅ demo_world)))
           [TextContent "pong"] eq_refl eq_refl).
Defined.

(** ** executeTool on a reachable world *)

Lemma perform_no_error_object call w message :
  (perform call w).1 ≠ Returned (ResError message).
Proof.
  destruct call; unfold perform, fmap, M_fmap;
    match goal with
    | |- context [match ?op ?w with _ => _ end] =>
        destruct (op w) as [[r | e] w']
    end; simpl; try done.
  by destruct r.
Qed.

(** What [executeTool] leaves behind: the world of one call of the state
    machine, or the world as it was. *)
Lemma executeTool_world toolName toolInput c w :
  executeTool toolName toolInput = Some c →
  (c w).2 = w ∨ ∃ call, tool_of call = toolName ∧ (c w).2 = step call w.
Proof.
  unfold executeTool. case_decide as Hin; simpl.
  - destruct (executeMemoryTool toolName toolInput) as [routed|] eqn:Hr;
      simpl; [| done].
    intros [= <-].
    destruct (executeMemoryTool_runs _ _ _ Hr)
      as [[Hout _] | [[-> ->] | (call & <- & ->)]]; [done | by left |].
    right. exists call. split; [done|]. unfold step, try_catch.
    by destruct (perform call w) as [[r | e] w'].
  - intros [= <-]. left. unfold try_catch.
    pose proof (executeMcpTool_world toolName toolInput w) as Hw.
    by destruct (executeMcpTool toolName toolInput w) as [[r | e] w'].
Qed.

Lemma executeTool_returns toolName toolInput c w :
  executeTool toolName toolInput = Some c →
  ∃ result w', c w = (Returned result, w') ∧ (reachable w → reachable w').
Proof.
  intros Hc.
  assert (Hr : ∃ result, (c w).1 = Returned result).
  { revert Hc. unfold executeTool.
    destruct (if decide (toolName ∈ memoryToolNames) then _ else _)
      as [routed|]; simpl; [| done].
    intros [= <-]. apply try_catch_returns. intros message w'. by eexists. }
  destruct Hr as [result Hr]. exists result, (c w).2.
  split; [by rewrite <- Hr; destruct (c w)|].
  intros Hw.
  destruct (executeTool_world _ _ _ w Hc) as [-> | (call & _ & ->)];
    [done | by constructor].
Qed.

(** X19: whatever tool name and input the model sends, [executeTool] on a
    reachable world ends in a reachable world, so every invariant of the
    reachable records holds between tool calls; and it returns a value, never
    throws. *)
Theorem executeTool_reachable toolName toolInput c w :
  reachable w → executeTool toolName toolInput = Some c →
  reachable (c w).2 ∧ ∃ result, (c w).1 = Returned result.
Proof.
  intros Hw Hc. split.
  - destruct (executeTool_world _ _ _ w Hc) as [-> | (call & _ & ->)];
      [done | by constructor].
  - revert Hc. unfold executeTool.
    destruct (if decide (toolName ∈ memoryToolNames) then _ else _)
      as [routed|]; simpl; [| done].
    intros [= <-]. apply try_catch_returns. intros message w'. by eexists.
Qed.

Lemma executeTool_reachable_witness :
  ∃ c, executeTool "confirm_root_cause"
         {[ "incident_id" := JString demo_id; "hypothesis_id" := JString "hyp_1" ]}
       = Some c ∧
    reachable (c demo_proposed).2 ∧ ∃ result, (c demo_proposed).1 = Returned result.
Proof.
  eexists. split; [reflexivity|].
  exact (executeTool_reachable "confirm_root_cause"
           {[ "incident_id" := JString demo_id; "hypothesis_id" := JString "hyp_1" ]}
           _ demo_proposed demo_proposed_reachable eq_refl).
Defined.

(** X20: an error object means that nothing happened: when [executeTool]
    returns [{ error: message }], the world is the one it started from (the
    memory operation threw before writing, or the MCP call threw); and the
    four reading tools leave the world as it is whatever they return. *)
Theorem executeTool_error_or_read toolName toolInput c w :
  executeTool toolName toolInput = Some c →
  (∀ message, (c w).1 = Returned (ResError message) → (c w).2 = w)
  ∧ (toolName ∈ read_tools → (c w).2 = w).
Proof.
  intros Hc. split.
  - revert Hc. unfold executeTool. case_decide as Hin; simpl.
    + destruct (executeMemoryTool toolName toolInput) as [routed|] eqn:Hr;
        simpl; [| done].
      intros [= <-] message.
      destruct (executeMemoryTool_runs _ _ _ Hr)
        as [[Hout _] | [[-> ->] | (call & <- & ->)]]; [done | done |].
      unfold try_catch.
      destruct (perform call w) as [[r | e] w'] eqn:Hp; simpl.
      * intros [= ->]. by destruct (perform_no_error_object call w message);
          rewrite Hp.
      * intros _. by apply perform_throws_not_found in Hp as [-> _].
    + intros [= <-] message _. unfold try_catch.
      pose proof (executeMcpTool_world toolName toolInput w) as Hw.
      by destruct (executeMcpTool toolName toolInput w) as [[r | e] w'].
  - intros Hread.
    destruct (executeTool_world _ _ _ w Hc) as [-> | (call & Hname & ->)];
      [done|].
    unfold read_tools in Hread. rewrite !elem_of_cons in Hread.
    destruct call; simpl in Hname; subst toolName;
      try (exfalso; destruct Hread as [? | [? | [? | [? | ?%elem_of_nil]]]];
           done);
      unfold step, perform; unfold_ops; by case_load.
Qed.

Lemma executeTool_error_or_read_witness :
  ∃ c, executeTool "get_hypotheses" {[ "incident_id" := JString "inc_x" ]}
       = Some c ∧
    (c demo_proposed).1 = Returned (ResError "Incident inc_x not found") ∧
    (c demo_proposed).2 = demo_proposed.
Proof.
  eexists. split; [reflexivity|]. split; [vm_compute; reflexivity|].
  refine (proj1 (executeTool_error_or_read "get_hypotheses"
                   {[ "incident_id" := JString "inc_x" ]} _ demo_proposed eq_refl)
            "Incident inc_x not found" _).
  vm_compute. reflexivity.
Defined.

(** ** The agentic loop *)

Lemma demo_sendMessage :
  ∃ s, sendMessage demo_oracle 3 "Is it the pool?" demo_session
       = Finished (Returned ("Root cause confirmed." +:+ newline +:+ "Done.")) s
    ∧ length (conversationHistory s) = 6%nat.
Proof. eexists. split; [vm_compute; reflexivity | reflexivity]. Qed.

Lemma run_tools_returns o blocks tools w :
  run_tools o blocks = Some tools →
  ∃ results w', tools w = (Returned results, w') ∧
    tool_use_id <$> results = tool_use_ids blocks ∧
    (reachable w → reachable w').
Proof.
  revert tools w. induction blocks as [| block blocks IH]; intros tools w; simpl.
  - intros [= <-]. by eexists [], w.
  - destruct block as [text | id name input |]; [by apply IH | | by apply IH].
    destruct (executeTool name input) as [call|] eqn:Hcall; simpl; [| done].
    destruct (run_tools o blocks) as [others|] eqn:Hothers; simpl; [| done].
    intros [= <-].
    destruct (executeTool_returns _ _ _ w Hcall) as (result & w1 & Hr & Hw1).
    destruct (IH others w1 eq_refl) as (results & w2 & Hrs & Hids & Hw2).
    exists (mkToolResult id (result_content o result) :: results), w2.
    unfold mbind, M_bind, mret, M_ret. rewrite Hr, Hrs. simpl.
    split; [done|]. split; [| auto].
    f_equal. exact Hids.
Qed.

(** What a finished loop leaves: rounds of answered tool requests, then the
    response that ended it, or the failure of the completion service. *)
Lemma sendMessage_loop_finished o fuel s outcome s' :
  sendMessage_loop o fuel s = Finished outcome s' →
  ∃ rounds, answered rounds ∧
    (reachable (world s) → reachable (world s')) ∧
    match outcome with
    | Returned text =>
        ∃ blocks stop,
          conversationHistory s'
          = (conversationHistory s ++ rounds ++ [AssistantMessage blocks])%list ∧
          finalMessage o (conversationHistory s ++ rounds)%list
          = Returned (mkResponse blocks stop) ∧
          stop ≠ tool_use ∧
          text = match stop with
                 | max_tokens => extractText blocks +:+ truncation_notice
                 | _ => extractText blocks
                 end
    | Thrown e =>
        conversationHistory s' = (conversationHistory s ++ rounds)%list ∧
        finalMessage o (conversationHistory s') = Thrown e
    end.
Proof.
  revert s. induction fuel as [| fuel IH]; intros s; simpl; [done|].
  destruct (finalMessage o (conversationHistory s)) as [[blocks stop] | e] eqn:Hfinal.
  2: { intros [= <- <-]. exists []. split; [constructor|]. split; [done|].
       by rewrite app_nil_r. }
  simpl. destruct stop.
  - intros [= <- <-]. exists []. split; [constructor|]. split; [done|].
    exists blocks, end_turn. rewrite app_nil_r. simpl.
    by repeat split.
  - destruct (run_tools o blocks) as [tools|] eqn:Htools; [| done].
    destruct (run_tools_returns _ _ _ (world s) Htools)
      as (results & w & Hrun & Hids & Hw).
    simpl. rewrite Hrun. intros Hloop.
    destruct (IH _ Hloop) as (rounds & Hrounds & Hreach & Hout).
    exists (AssistantMessage blocks :: ToolResultsMessage results :: rounds).
    split; [by constructor|]. split; [simpl in *; auto|].
    simpl in Hout. destruct outcome as [text | e].
    + destruct Hout as (blocks' & stop' & Hh & Hf & Hstop & Htext).
      exists blocks', stop'. rewrite <- !app_assoc in Hh, Hf. simpl in Hh, Hf.
      by rewrite Hh, <- Hf.
    + destruct Hout as (Hh & Hf). rewrite <- !app_assoc in Hh. simpl in Hh.
      by rewrite Hf, Hh.
  - intros [= <- <-]. exists []. split; [constructor|]. split; [done|].
    exists blocks, max_tokens. rewrite app_nil_r. simpl.
    by repeat split.
  - intros [= <- <-]. exists []. split; [constructor|]. split; [done|].
    exists blocks, other_stop. rewrite app_nil_r. simpl.
    by repeat split.
Qed.

Lemma alternates_app h1 h2 : alternates h1 → alternates h2 → alternates (h1 ++ h2).
Proof.
  intros H1 H2. remember (length h1) as n eqn:Hn.
  assert (Hle : (length h1 ≤ n)%nat) by lia. clear Hn.
  revert h1 H1 Hle. induction n as [| n IH]; intros h1 H1 Hle.
  - destruct h1; [done | simpl in Hle; lia].
  - destruct h1 as [| u [| a rest]]; [done | done |].
    destruct H1 as (Hu & Ha & Hrest). simpl.
    split; [done|]. split; [done|]. apply IH; [done|]. simpl in Hle. lia.
Qed.

Lemma answered_alternates u rounds blocks :
  is_user u = true → answered rounds →
  alternates (u :: rounds ++ [AssistantMessage blocks]).
Proof.
  intros Hu Hrounds. revert u Hu.
  induction Hrounds as [| blocks' results rest Hids Hrest IH]; intros u Hu.
  - by simpl.
  - change (is_user u = true ∧ is_user (AssistantMessage blocks') = false
            ∧ alternates (ToolResultsMessage results
                            :: rest ++ [AssistantMessage blocks])).
    split; [done|]. split; [done|]. by apply IH.
Qed.

(** X21: when [sendMessage] returns, the history is the former history, the
    message of the user, then rounds of a response and its tool results in
    which every [tool_use] block is answered by a result with its id, in the
    order of the blocks, and last the response whose stop reason was not
    [tool_use]; the text returned is the text of that last response, with the
    truncation notice when the stop reason was [max_tokens]. *)
Theorem sendMessage_answers o fuel userMessage s text s' :
  sendMessage o fuel userMessage s = Finished (Returned text) s' →
  ∃ rounds blocks stop,
    conversationHistory s'
    = (conversationHistory s
         ++ UserMessage userMessage :: rounds ++ [AssistantMessage blocks])%list ∧
    answered rounds ∧
    finalMessage o (conversationHistory s ++ UserMessage userMessage :: rounds)%list
    = Returned (mkResponse blocks stop) ∧
    stop ≠ tool_use ∧
    text = match stop with
           | max_tokens => extractText blocks +:+ truncation_notice
           | _ => extractText blocks
           end.
Proof.
  unfold sendMessage. intros Hloop.
  destruct (sendMessage_loop_finished _ _ _ _ _ Hloop)
    as (rounds & Hrounds & _ & blocks & stop & Hh & Hf & Hstop & Htext).
  exists rounds, blocks, stop. simpl in Hh, Hf.
  rewrite <- !app_assoc in Hh, Hf. simpl in Hh, Hf. by repeat split.
Qed.

Lemma sendMessage_answers_witness :
  ∃ s' rounds blocks,
    sendMessage demo_oracle 3 "Is it the pool?" demo_session
    = Finished (Returned ("Root cause confirmed." +:+ newline +:+ "Done.")) s' ∧
    conversationHistory s'
    = (UserMessage "Is it the pool?" :: rounds ++ [AssistantMessage blocks])%list ∧
    answered rounds.
Proof.
  assert (Hrun : ∃ s', sendMessage demo_oracle 3 "Is it the pool?" demo_session
                       = Finished
                           (Returned ("Root cause confirmed." +:+ newline +:+ "Done."))
                           s').
  { eexists. vm_compute. reflexivity. }
  destruct Hrun as [s' Hrun].
  destruct (sendMessage_answers _ _ _ _ _ _ Hrun)
    as (rounds & blocks & stop & Hh & Hrounds & _).
  exists s', rounds, blocks. by repeat split.
Defined.

(** X22: [sendMessage] throws only when the completion service throws, and
    with its error: no tool failure aborts the exchange. The history then
    holds the message of the user and the rounds answered so far, and ends
    with an entry of role [user]; the assistant turn is missing. *)
Theorem sendMessage_throws o fuel userMessage s e s' :
  sendMessage o fuel userMessage s = Finished (Thrown e) s' →
  ∃ rounds,
    conversationHistory s'
    = (conversationHistory s ++ UserMessage userMessage :: rounds)%list ∧
    answered rounds ∧
    finalMessage o (conversationHistory s') = Thrown e ∧
    (∃ u, last (conversationHistory s') = Some u ∧ is_user u = true).
Proof.
  unfold sendMessage. intros Hloop.
  destruct (sendMessage_loop_finished _ _ _ _ _ Hloop)
    as (rounds & Hrounds & _ & Hh & Hf).
  exists rounds. simpl in Hh. rewrite <- !app_assoc in Hh. simpl in Hh.
  split; [done|]. split; [done|]. split; [done|].
  rewrite Hh. clear -Hrounds.
  assert (Hlast : ∀ u, is_user u = true →
            ∃ u', last (u :: rounds) = Some u' ∧ is_user u' = true).
  { induction Hrounds as [| blocks results rest _ _ IH]; intros u Hu.
    - by exists u.
    - destruct (IH (ToolResultsMessage results) eq_refl) as (u' & Hl & Hu').
      exists u'. split; [| done]. by rewrite !last_cons_cons. }
  destruct (Hlast (UserMessage userMessage) eq_refl) as (u' & Hl & Hu').
  exists u'. split; [| done].
  rewrite last_app. by rewrite Hl.
Qed.

Lemma sendMessage_throws_witness :
  ∃ s' rounds,
    sendMessage failing_oracle 1 "Is it the pool?" demo_session
    = Finished (Thrown "529 overloaded") s' ∧
    conversationHistory s' = (UserMessage "Is it the pool?" :: rounds)%list ∧
    answered rounds.
Proof.
  assert (Hrun : ∃ s', sendMessage failing_oracle 1 "Is it the pool?" demo_session
                       = Finished (Thrown "529 overloaded") s').
  { eexists. reflexivity. }
  destruct Hrun as [s' Hrun].
  destruct (sendMessage_throws _ _ _ _ _ _ Hrun) as (rounds & Hh & Hrounds & _).
  exists s', rounds. by repeat split.
Defined.

(** X23: a [sendMessage] that returns keeps the turns alternating: if the
    history was a sequence of user entries and assistant entries in turn,
    from a user entry to an assistant entry, so is the history after it, tool
    results counting as user entries. *)
Theorem sendMessage_alternates o fuel userMessage s text s' :
  alternates (conversationHistory s) →
  sendMessage o fuel userMessage s = Finished (Returned text) s' →
  alternates (conversationHistory s').
Proof.
  intros Halt Hsend.
  destruct (sendMessage_loop_finished _ _ _ _ _ Hsend)
    as (rounds & Hrounds & _ & blocks & stop & Hh & _).
  simpl in Hh. rewrite <- !app_assoc in Hh. simpl in Hh. rewrite Hh.
  apply alternates_app; [done|]. by apply answered_alternates.
Qed.

Lemma sendMessage_alternates_witness :
  ∃ s', sendMessage demo_oracle 3 "Is it the pool?" demo_session
        = Finished (Returned ("Root cause confirmed." +:+ newline +:+ "Done.")) s' ∧
    alternates (conversationHistory s').
Proof.
  assert (Hrun : ∃ s', sendMessage demo_oracle 3 "Is it the pool?" demo_session
                       = Finished
                           (Returned ("Root cause confirmed." +:+ newline +:+ "Done."))
                           s').
  { eexists. vm_compute. reflexivity. }
  destruct Hrun as [s' Hrun]. exists s'. split; [done|].
  refine (sendMessage_alternates demo_oracle 3 "Is it the pool?" demo_session
            _ s' _ Hrun).
  exact I.
Defined.

(** X24: a [sendMessage] that finishes on a reachable world, while every
    tool input that the completion service sent had the shape its tool
    declares (the exchanges for which [sendMessage] is [Finished]; one input
    outside the schema ends it as [OutsideSchema]), leaves a reachable world:
    the invariants of the reachable records hold after such an exchange,
    returned or thrown. *)
Theorem sendMessage_reachable o fuel userMessage s outcome s' :
  reachable (world s) →
  sendMessage o fuel userMessage s = Finished outcome s' →
  reachable (world s').
Proof.
  intros Hw Hsend.
  destruct (sendMessage_loop_finished _ _ _ _ _ Hsend) as (_ & _ & Hreach & _).
  by apply Hreach.
Qed.

Lemma sendMessage_reachable_witness :
  ∃ s' m, sendMessage demo_oracle 3 "Is it the pool?" demo_session
          = Finished (Returned ("Root cause confirmed." +:+ newline +:+ "Done.")) s' ∧
    reachable (world s') ∧
    files (world s') !! demo_id = Some m ∧ status (metadata m) = resolved.
Proof.
  assert (Hrun : ∃ s' m, sendMessage demo_oracle 3 "Is it the pool?" demo_session
                         = Finished
                             (Returned ("Root cause confirmed." +:+ newline +:+ "Done."))
                             s'
                       ∧ files (world s') !! demo_id = Some m
                       ∧ status (metadata m) = resolved).
  { eexists _, _. split; [vm_compute; reflexivity|]. split; [vm_compute|]; reflexivity. }
  destruct Hrun as (s' & m & Hrun & Hm & Hs). exists s', m.
  split; [done|]. split; [| by split].
  exact (sendMessage_reachable demo_oracle 3 "Is it the pool?" demo_session
           _ s' demo_proposed_reachable Hrun).
Defined.

(** X25: tools are executed only on the stop reason [tool_use]: when the
    first response has another stop reason, [sendMessage] ends after this
    one request, whatever the bound on requests, with the world untouched,
    the history extended by the message of the user and the response, and the
    text of the response returned: also when the response holds [tool_use]
    blocks, which then stay unanswered. *)
Theorem sendMessage_without_tools o fuel userMessage s blocks stop :
  finalMessage o (conversationHistory s ++ [UserMessage userMessage])
  = Returned (mkResponse blocks stop) →
  stop ≠ tool_use →
  sendMessage o (S fuel) userMessage s
  = Finished
      (Returned match stop with
                | max_tokens => extractText blocks +:+ truncation_notice
                | _ => extractText blocks
                end)
      (mkSession
         (conversationHistory s
            ++ [UserMessage userMessage; AssistantMessage blocks])
         (world s)).
Proof.
  intros Hfinal Hstop. unfold sendMessage. simpl. rewrite Hfinal. simpl.
  unfold push. simpl. rewrite <- app_assoc. simpl. by destruct stop.
Qed.

Lemma sendMessage_without_tools_witness :
  sendMessage truncating_oracle 5 "Is it the pool?" demo_session
  = Finished (Returned ("Confirming." +:+ truncation_notice))
      (mkSession
         [ UserMessage "Is it the pool?";
           AssistantMessage
             [TextBlock "Confirming.";
              ToolUseBlock "toolu_9" "confirm_root_cause" ∅] ]
         demo_proposed).
Proof.
  refine (sendMessage_without_tools truncating_oracle 4 "Is it the pool?"
            demo_session _ max_tokens eq_refl _).
  discriminate.
Defined.

(** ** addFinding and updateTLDR *)

(** X16: on a stored record [addFinding] appends the finding it is given at
    the end of the findings, without reading the clock, and [updateTLDR]
    replaces the summary and stamps it with the current time; each leaves
    every other field of the record as stored. *)
Theorem addFinding_updateTLDR_effect w m :
  (∀ p, files w !! af_incident_id p = Some m →
     addFinding p w
     = (Returned
          (set_findings
             (findings m ++
                [mkFinding (af_type p) (af_description p) (af_service p)
                   (af_timestamp p) (af_value p)]) m),
        mkWorld
          (<[incident_id m :=
               set_findings
                 (findings m ++
                    [mkFinding (af_type p) (af_description p) (af_service p)
                       (af_timestamp p) (af_value p)]) m]> (files w))
          (host w) (ticks w)))
  ∧ (∀ p, files w !! ut_incident_id p = Some m →
       updateTLDR p w
       = (Returned
            (set_tldr
               (mkTLDR (ut_summary p) (toISOString_now (host w) (ticks w))) m),
          mkWorld
            (<[incident_id m :=
                 set_tldr
                   (mkTLDR (ut_summary p) (toISOString_now (host w) (ticks w)))
                   m]> (files w))
            (host w) (S (ticks w)))).
Proof.
  split; intros p Hk; [unfold addFinding | unfold updateTLDR]; unfold_monad;
    by rewrite Hk.
Qed.

Lemma addFinding_updateTLDR_effect_witness :
  ∃ m m' w',
    files demo_confirmed !! demo_id = Some m ∧
    updateTLDR {| ut_incident_id := demo_id; ut_summary := "Reopened" |}
      demo_confirmed
    = (Returned m', w') ∧
    summary (tldr m') = "Reopened" ∧ status (metadata m') = resolved.
Proof.
  assert (Hm : ∃ m, files demo_confirmed !! demo_id = Some m
                    ∧ status (metadata m) = resolved).
  { eexists. split; [vm_compute; reflexivity | reflexivity]. }
  destruct Hm as (m & Hk & Hs). exists m. eexists _, _.
  split; [exact Hk|].
  split; [exact (proj2 (addFinding_updateTLDR_effect demo_confirmed m)
                   {| ut_incident_id := demo_id; ut_summary := "Reopened" |} Hk)|].
  split; [reflexivity | exact Hs].
Defined.
